(** * Segment trees over a flat array: a shallow embedding

    The repository holds four renderings of one algorithm (Sleator's
    segment tree from the lecture notes):

    - [src/c/segtree.c]            C, [size_t] indices, [int] elements;
    - [src/segtree.c]              C, [int] indices, [int] elements, the
                                   [identity] field is never initialised;
    - [src/segtree.cpp]            C++, [int] indices, [int] elements;
    - [src/cpp/generic_segtree.cpp] C++ template, [size_t] indices, element
                                   type and operator supplied by the user.

    The functions [SuperCeiling], [Parent], [LeftChild], [RightChild],
    [Assign], [f] and [RangeSum] are textually the same in all four, up to
    the index type and the element type.  They are embedded once, in a
    section that abstracts over
    - [idx]  : the result of an arithmetic operation in the index type
               (reduction modulo 2^64 for [size_t], two's complement
               reduction for [int]);
    - [T], [glue] : the element type and the operator.

    Conventions of the embedding:
    - the array [A] is a [list T]; reading or writing outside of it is
      undefined behaviour in the source and yields [Undef];
    - loops and recursion that the source does not bound take a [fuel]
      argument and yield [Timeout] when it runs out;
    - memory exhaustion is not modelled: an allocation whose size is
      representable succeeds. *)

From Stdlib Require Import ZArith Lia Bool List.
From stdpp Require Import base list strings pretty.

Local Open Scope Z_scope.

(** ** Outcomes of running a piece of the program *)

Inductive result (X : Type) : Type :=
| Ok (x : X)      (* ran to completion with value [x] *)
| Undef           (* access outside of the allocated array *)
| Timeout.        (* the fuel ran out *)

Arguments Ok {X} x.
Arguments Undef {X}.
Arguments Timeout {X}.

#[global] Instance result_ret : MRet result := fun X x => Ok x.

#[global] Instance result_bind : MBind result := fun X Y k m =>
  match m with
  | Ok x => k x
  | Undef => Undef
  | Timeout => Timeout
  end.

(** ** Array accesses: [A[i]] and [A[i] = x] *)

Definition rd {T : Type} (A : list T) (i : Z) : result T :=
  if i <? 0 then Undef
  else match A !! Z.to_nat i with
       | Some x => Ok x
       | None => Undef
       end.

Definition wr {T : Type} (A : list T) (i : Z) (x : T) : result (list T) :=
  if (0 <=? i) && (i <? Z.of_nat (length A))
  then Ok (<[Z.to_nat i := x]> A)
  else Undef.

(** ** The data structure *)

Record SegTree (T : Type) : Type := mkSegTree {
  identity : T;
  n : Z;
  N : Z;
  A : list T
}.

Arguments mkSegTree {T}.
Arguments identity {T}.
Arguments n {T}.
Arguments N {T}.
Arguments A {T}.

(** ** The algorithm, generic in the index arithmetic and the operator *)

Section Algorithm.

Context {T : Type}.
Variable idx : Z -> Z.
Variable glue : T -> T -> T.

(** [for (p=1; p < n; p = p << 1); return p;] *)
Fixpoint SuperCeiling_loop (fuel : nat) (p n : Z) : result Z :=
  if p <? n then
    match fuel with
    | O => Timeout
    | S fuel' => SuperCeiling_loop fuel' (idx (Z.shiftl p 1)) n
    end
  else Ok p.

Definition SuperCeiling (fuel : nat) (n : Z) : result Z :=
  SuperCeiling_loop fuel 1 n.

Definition max (a b : Z) : Z := if a >? b then a else b.
Definition min (a b : Z) : Z := if a <? b then a else b.

Definition Parent (i : Z) : Z := Z.quot i 2.
Definition LeftChild (i : Z) : Z := idx (2 * i).
Definition RightChild (i : Z) : Z := idx (idx (2 * i) + 1).

(** [for (i = Parent(i); i>0; i = Parent(i))
       A[i] = glue (A[LeftChild(i)], A[RightChild(i)]);]
    entered with [i] already set to the parent of the leaf. *)
Fixpoint Assign_loop (fuel : nat) (A : list T) (i : Z) : result (list T) :=
  if i >? 0 then
    match fuel with
    | O => Timeout
    | S fuel' =>
        a ← rd A (LeftChild i);
        b ← rd A (RightChild i);
        A' ← wr A i (glue a b);
        Assign_loop fuel' A' (Parent i)
    end
  else Ok A.

Definition Assign (fuel : nat) (s : SegTree T) (i : Z) (x : T)
  : result (SegTree T) :=
  let i := idx (i + N s) in
  A1 ← wr (A s) i x;
  A2 ← Assign_loop fuel A1 (Parent i);
  Ok (mkSegTree (identity s) (n s) (N s) A2).

Fixpoint f (fuel : nat) (s : SegTree T) (v l r i j : Z) : result T :=
  match fuel with
  | O => Timeout
  | S fuel' =>
      if (l =? i) && (r =? j) then rd (A s) v
      else
        let m := Z.quot (idx (l + r)) 2 in
        t1 ← (if i <=? m
                  then f fuel' s (LeftChild v) l m i (min m j)
                  else Ok (identity s));
        t2 ← (if j >? m
                  then f fuel' s (RightChild v) (idx (m + 1)) r
                         (max i (idx (m + 1))) j
                  else Ok (identity s));
        Ok (glue t1 t2)
  end.

Definition RangeSum (fuel : nat) (s : SegTree T) (i j : Z) : result T :=
  f fuel s 1 0 (idx (N s - 1)) i j.

(** A sequence of assignments, first to last. *)
Fixpoint Assign_all (fuel : nat) (s : SegTree T) (ops : list (Z * T))
  : result (SegTree T) :=
  match ops with
  | [] => Ok s
  | (i, x) :: rest => s' ← Assign fuel s i x; Assign_all fuel s' rest
  end.

(** Construction as in [src/c/segtree.c] ([malloc], a loop storing the
    literal 0 in the [2*N] slots, [identity = 0]) and in the C++ variants
    ([A.resize(2 * N, identity)] with the member initialiser
    [identity = 0]).  [zero] is the element the literal [0] converts to,
    [max_count] the largest number of elements an allocation can hold
    (the byte count must be representable). *)
Variable zero : T.
Variable max_count : Z.

Definition SegTreeInit (fuel : nat) (n : Z) : result (SegTree T) :=
  N ← SuperCeiling fuel n;
  let count := idx (2 * N) in
  if (0 <=? count) && (count <=? max_count)
  then Ok (mkSegTree zero n N (replicate (Z.to_nat count) zero))
  else Undef.

Definition build (fuel : nat) (n : Z) (ops : list (Z * T))
  : result (SegTree T) :=
  s ← SegTreeInit fuel n; Assign_all fuel s ops.

End Algorithm.

Arguments max : simpl never.
Arguments min : simpl never.

(** ** The index types and the element type of the variants *)

(** Arithmetic in [size_t] (64 bits, unsigned): reduction modulo 2^64. *)
Definition size_t (z : Z) : Z := z mod 2 ^ 64.

(** Arithmetic in [int] (32 bits, two's complement).  Signed overflow is
    undefined in C; the embedding takes the wrapped value. *)
Definition int (z : Z) : Z := (z + 2 ^ 31) mod 2 ^ 32 - 2 ^ 31.

Definition SIZE_MAX : Z := 2 ^ 64 - 1.
Definition PTRDIFF_MAX : Z := 2 ^ 63 - 1.
Definition INT_MAX : Z := 2 ^ 31 - 1.
Definition sizeof_int : Z := 4.

(** The values an [int] can hold. *)
Definition int_range (x : Z) : Prop := - 2 ^ 31 <= x < 2 ^ 31.

(** [int glue(int a, int b) { return a+b; }], and [plus<int>()]. *)
Definition glue_int (a b : Z) : Z := int (a + b).

(** [src/c/segtree.c].  [malloc (sizeof(int) * (2*s->N))] yields room for
    the [2*N] slots only if the product does not wrap, that is for at most
    [SIZE_MAX / sizeof(int)] slots; beyond that the initialising loop
    stores past the block. *)
Module C.
Definition SuperCeiling := SuperCeiling size_t.
Definition SegTreeInit := SegTreeInit size_t 0 (SIZE_MAX / sizeof_int).
Definition Assign := Assign size_t glue_int.
Definition f := f size_t glue_int.
Definition RangeSum := RangeSum size_t glue_int.

(** The statements of [main] before the queries. *)
Definition main_tree (fuel : nat) : result (SegTree Z) :=
  s ← SegTreeInit fuel 7;
  s ← Assign fuel s 3 7;
  Assign fuel s 4 1.

(** [RangeSum(&s, i, j)] as [main] calls it. *)
Definition main_query (fuel : nat) (i j : Z) : result Z :=
  s ← main_tree fuel; RangeSum fuel s i j.

(** The tree [main] queries, as [printA] shows it. *)
Definition demo_tree : SegTree Z :=
  mkSegTree 0 7 8 [0; 8; 7; 1; 0; 7; 1; 0; 0; 0; 0; 7; 1; 0; 0; 0].
End C.

(** [src/segtree.cpp]: [vector<int>], [int] indices.  [resize] refuses a
    count above [max_size()], and a negative [int] converts to a count
    above it. *)
Module Cpp.
Definition SuperCeiling := SuperCeiling int.
Definition Segtree := SegTreeInit int 0 (PTRDIFF_MAX / sizeof_int).
Definition Assign := Assign int glue_int.
Definition f := f int glue_int.
Definition RangeSum := RangeSum int glue_int.

Definition main_tree (fuel : nat) : result (SegTree Z) :=
  s ← Segtree fuel 7;
  s ← Assign fuel s 3 7;
  Assign fuel s 4 1.

Definition main_query (fuel : nat) (i j : Z) : result Z :=
  s ← main_tree fuel; RangeSum fuel s i j.
End Cpp.

(** [src/cpp/generic_segtree.cpp]: [vector<ValueType>], [size_t] indices,
    the operator is the constructor's argument.  [zero] is [ValueType(0)]
    and [sizeof_T] is [sizeof(ValueType)]. *)
Module Generic.
Section Template.
Context {ValueType : Type}.
Variable zero : ValueType.
Variable sizeof_T : Z.
Variable glue_func : ValueType -> ValueType -> ValueType.

Definition SuperCeiling := SuperCeiling size_t.
Definition Segtree := SegTreeInit size_t zero (PTRDIFF_MAX / sizeof_T).
Definition Assign := Assign size_t glue_func.
Definition f := f size_t glue_func.
Definition RangeSum := RangeSum size_t glue_func.
End Template.

(** [Segtree<int> s(7, plus<int>()); s.Assign(3,7); s.Assign(4,1);] *)
Definition main_tree (fuel : nat) : result (SegTree Z) :=
  s ← Segtree 0 sizeof_int fuel 7;
  s ← Assign glue_int fuel s 3 7;
  Assign glue_int fuel s 4 1.

Definition main_query (fuel : nat) (i j : Z) : result Z :=
  s ← main_tree fuel; RangeSum glue_int fuel s i j.
End Generic.

(** [src/segtree.c]: [int] indices; [SegTreeInit] fills in [n], [N] and [A]
    of the caller's struct and leaves its [identity] field as it finds it.
    [s0] is the struct before the call. *)
Module Legacy.
Definition SuperCeiling := SuperCeiling int.

Definition SegTreeInit (fuel : nat) (s0 : SegTree Z) (n : Z)
  : result (SegTree Z) :=
  N ← SuperCeiling fuel n;
  Ok (mkSegTree (identity s0) n N (replicate (Z.to_nat (int (2 * N))) 0)).

Definition Assign := Assign int glue_int.
Definition f := f int glue_int.
Definition RangeSum := RangeSum int glue_int.

(** [main] declares [SegTree s;] without an initialiser: the struct
    handed to [SegTreeInit] holds whatever the stack held. *)
Definition main_tree (fuel : nat) (s0 : SegTree Z) : result (SegTree Z) :=
  s ← SegTreeInit fuel s0 7;
  s ← Assign fuel s 3 7;
  Assign fuel s 4 1.

Definition main_query (fuel : nat) (s0 : SegTree Z) (i j : Z) : result Z :=
  s ← main_tree fuel s0; RangeSum fuel s i j.

(** How many times the run of [f] on block [l..r] and query [i..j] takes
    [s->identity] as a contribution: the recursion of [f], counting the
    two [: s->identity] branches. *)
Fixpoint identity_reads (fuel : nat) (l r i j : Z) : Z :=
  match fuel with
  | O => 0
  | S fuel' =>
      if (l =? i) && (r =? j) then 0
      else
        let m := Z.quot (int (l + r)) 2 in
        (if i <=? m
         then identity_reads fuel' l m i (min m j)
         else 1) +
        (if j >? m
         then identity_reads fuel' (int (m + 1)) r (max i (int (m + 1))) j
         else 1)
  end.

(** The struct [s] with [c] in its [identity] field. *)
Definition with_identity (c : Z) (s : SegTree Z) : SegTree Z :=
  mkSegTree c (n s) (N s) (A s).
End Legacy.

(** ** What a query is meant to return *)

(** [combine(x1, combine(x2, ... combine(x(k-1), xk)))]. *)
Fixpoint fold_glue {T : Type} (glue : T -> T -> T) (zero : T) (xs : list T)
  : T :=
  match xs with
  | [] => zero
  | [x] => x
  | x :: rest => glue x (fold_glue glue zero rest)
  end.

(** The content of slot [i] of the array (an absent slot reads as [d]). *)
Definition sel {T : Type} (d : T) (A : list T) (i : Z) : T :=
  default d (A !! Z.to_nat i).

(** Slot [i] of the backing array of [s]. *)
Definition storage {T : Type} (s : SegTree T) (i : Z) : T :=
  sel (identity s) (A s) i.

(** The leaves of logical positions [i..j], left to right. *)
Definition leaves {T : Type} (s : SegTree T) (i j : Z) : list T :=
  (fun k => storage s (N s + k)) <$> seqZ i (j - i + 1).

(** The value last assigned to logical position [k] by [ops], if any. *)
Fixpoint last_assigned {T : Type} (ops : list (Z * T)) (k : Z) : option T :=
  match ops with
  | [] => None
  | (i, x) :: rest =>
      match last_assigned rest k with
      | Some y => Some y
      | None => if i =? k then Some x else None
      end
  end.

Definition pow2 (h : nat) : Z := 2 ^ Z.of_nat h.

(** ** The state invariants *)

Section Invariants.

Context {T : Type}.
Variable glue : T -> T -> T.
Variable zero : T.
Variable max_count : Z.
Variable valid : T -> Prop.

(** The layout: [N] is a power of two with [n <= N], the array has [2*N]
    slots, every slot holds a value of the operator's domain. *)
Record shape (s : SegTree T) : Prop := mkShape {
  shape_pow : exists h : nat, N s = pow2 h;
  shape_n : 0 <= n s <= N s;
  shape_cap : 2 * N s <= max_count;
  shape_len : Z.of_nat (length (A s)) = 2 * N s;
  shape_valid : Forall valid (A s);
  shape_id : identity s = zero
}.

(** Every internal node is the combination of its two children. *)
Definition nodes_ok (s : SegTree T) : Prop :=
  forall i, 1 <= i < N s ->
    storage s i = glue (storage s (2 * i)) (storage s (2 * i + 1)).

(** Every padding leaf holds the identity element. *)
Definition padding_ok (s : SegTree T) : Prop :=
  forall i, N s + n s <= i < 2 * N s -> storage s i = identity s.

(** Node [v] sits [h] levels above the leaves and spans the logical
    positions [l..r]. *)
Definition block (s : SegTree T) (h : nat) (v l r : Z) : Prop :=
  0 <= l /\ v * pow2 h = N s + l /\ r = l + pow2 h - 1 /\ r < N s.

(** A logical size for which the [2*N] slots can be allocated. *)
Definition fits (n : Z) : Prop :=
  0 <= n /\ 2 * 2 ^ Z.log2_up n <= max_count.

(** An assignment the interface allows on a tree of logical size [n]. *)
Definition valid_op (n : Z) (op : Z * T) : Prop :=
  0 <= fst op < n /\ valid (snd op).

(** The current value of logical position [k] after [ops]. *)
Definition current (ops : list (Z * T)) (k : Z) : T :=
  default zero (last_assigned ops k).

End Invariants.

(** [anc p i]: [p] is [i] or one of the nodes the walk reaches from [i]. *)
Inductive anc : Z -> Z -> Prop :=
| anc_here i : anc i i
| anc_up p i : anc p (Z.quot i 2) -> anc p i.

(** ** Assumptions on the parameters *)

(** The index type represents the integers below [index_max] exactly, and
    an array that can be allocated can be indexed. *)
Record index_type (idx : Z -> Z) (index_max max_count : Z) : Prop :=
  mkIndexType {
    index_exact : forall z, 0 <= z < index_max -> idx z = z;
    index_count : max_count < index_max
  }.

(** [glue] is associative with identity [zero] on the values [valid]
    singles out (all of [T], or the range of a machine integer). *)
Record operator {T : Type} (glue : T -> T -> T) (zero : T)
    (valid : T -> Prop) : Prop :=
  mkOperator {
    op_valid : forall a b, valid a -> valid b -> valid (glue a b);
    op_zero_valid : valid zero;
    op_assoc : forall a b c, valid a -> valid b -> valid c ->
      glue a (glue b c) = glue (glue a b) c;
    op_zero_l : forall a, valid a -> glue zero a = a;
    op_zero_r : forall a, valid a -> glue a zero = a
  }.

(** ** The debugging output *)

Section Printing.

Context {T : Type}.
Variable idx : Z -> Z.

(** How an element is rendered ([%d] for [int], [operator<<] of the
    element type in the template). *)
Variable show : T -> string.

(** One line of [printA]: [printf("A[%zu] = %d\n", i, s->A[i])], or
    [cout << "A[" << i << "] = " << A[i] << endl]. *)
Definition printA_line (i : Z) (x : T) : string :=
  "A[" +:+ pretty i +:+ "] = " +:+ show x +:+ String (Ascii.ascii_of_nat 10) EmptyString.

(** [for (i = 0; i < 2 * s->N; i++) printf(...)], from the current [i]
    on; the result is the list of the lines written. *)
Fixpoint printA_loop (fuel : nat) (s : SegTree T) (i : Z)
  : result (list string) :=
  if i <? idx (2 * N s) then
    match fuel with
    | O => Timeout
    | S fuel' =>
        x ← rd (A s) i;
        rest ← printA_loop fuel' s (idx (i + 1));
        Ok (printA_line i x :: rest)
    end
  else Ok [].

Definition printA (fuel : nat) (s : SegTree T) : result (list string) :=
  printA_loop fuel s 0.

End Printing.

(** ** Counting the work of a query *)

Section Counting.

Variable idx : Z -> Z.

(** The number of invocations of [f] that the call on block [l..r] with
    query [i..j] makes, itself included: the recursion of [f], counting
    one per call. *)
Fixpoint f_calls (fuel : nat) (l r i j : Z) : Z :=
  match fuel with
  | O => 0
  | S fuel' =>
      if (l =? i) && (r =? j) then 1
      else
        let m := Z.quot (idx (l + r)) 2 in
        1 +
        (if i <=? m then f_calls fuel' l m i (min m j) else 0) +
        (if j >? m
         then f_calls fuel' (idx (m + 1)) r (max i (idx (m + 1))) j
         else 0)
  end.

End Counting.

(** ** Elementary facts *)

Lemma pow2_0 : pow2 0 = 1.
Proof. reflexivity. Qed.

Lemma pow2_S h : pow2 (S h) = 2 * pow2 h.
Proof. unfold pow2. rewrite Nat2Z.inj_succ, Z.pow_succ_r; lia. Qed.

Lemma pow2_pos h : 0 < pow2 h.
Proof. unfold pow2. apply Z.pow_pos_nonneg; lia. Qed.

Lemma pow2_le h k : (h <= k)%nat -> pow2 h <= pow2 k.
Proof. intros H. unfold pow2. apply Z.pow_le_mono_r; lia. Qed.

Lemma pow2_lt h k : (h < k)%nat -> pow2 h < pow2 k.
Proof. intros H. unfold pow2. apply Z.pow_lt_mono_r; lia. Qed.

Lemma pow2_log2 h : Z.log2 (pow2 h) = Z.of_nat h.
Proof. unfold pow2. apply Z.log2_pow2. lia. Qed.

Lemma quot2_even x : 0 <= x -> Z.quot (2 * x) 2 = x.
Proof.
  intros H. rewrite Z.quot_div_nonneg by lia.
  rewrite Z.mul_comm. apply Z.div_mul. lia.
Qed.

Lemma quot2_odd x : 0 <= x -> Z.quot (2 * x + 1) 2 = x.
Proof.
  intros H. rewrite Z.quot_div_nonneg by lia.
  symmetry. apply Z.div_unique with (r := 1); lia.
Qed.

Lemma quot2_lt x : 0 < x -> 0 <= Z.quot x 2 < x.
Proof.
  intros H. rewrite Z.quot_div_nonneg by lia. split.
  - apply Z.div_pos; lia.
  - apply Z.div_lt; lia.
Qed.

Lemma rd_sel {T : Type} (d : T) (A : list T) (i : Z) :
  0 <= i < Z.of_nat (length A) -> rd A i = Ok (sel d A i).
Proof.
  intros H. unfold rd, sel.
  destruct (Z.ltb_spec i 0) as [|_]; [lia|].
  destruct (lookup_lt_is_Some_2 A (Z.to_nat i)) as [x Hx]; [lia|].
  rewrite Hx. reflexivity.
Qed.

Lemma wr_ok {T : Type} (A : list T) (i : Z) (x : T) :
  0 <= i < Z.of_nat (length A) -> wr A i x = Ok (<[Z.to_nat i := x]> A).
Proof.
  intros H. unfold wr.
  destruct (Z.leb_spec 0 i); [|lia].
  destruct (Z.ltb_spec i (Z.of_nat (length A))); [|lia].
  reflexivity.
Qed.

Lemma sel_insert_eq {T : Type} (d : T) (A : list T) (i : Z) (x : T) :
  0 <= i < Z.of_nat (length A) -> sel d (<[Z.to_nat i := x]> A) i = x.
Proof.
  intros H. unfold sel. rewrite list_lookup_insert_eq by lia. reflexivity.
Qed.

Lemma sel_insert_ne {T : Type} (d : T) (A : list T) (i j : Z) (x : T) :
  0 <= i -> 0 <= j -> i <> j ->
  sel d (<[Z.to_nat i := x]> A) j = sel d A j.
Proof.
  intros Hi Hj Hne. unfold sel. rewrite list_lookup_insert_ne by lia.
  reflexivity.
Qed.

Lemma sel_valid {T : Type} (valid : T -> Prop) (d : T) (A : list T) (i : Z) :
  Forall valid A -> 0 <= i < Z.of_nat (length A) -> valid (sel d A i).
Proof.
  intros HA H. unfold sel.
  destruct (lookup_lt_is_Some_2 A (Z.to_nat i)) as [x Hx]; [lia|].
  rewrite Hx. simpl. eapply Forall_lookup_1; eassumption.
Qed.

Lemma last_assigned_snoc {T : Type} (ops : list (Z * T)) i (x : T) k :
  last_assigned (ops ++ [(i, x)]) k =
  if i =? k then Some x else last_assigned ops k.
Proof.
  induction ops as [|[i' x'] ops IH]; simpl.
  - reflexivity.
  - rewrite IH. destruct (i =? k); [reflexivity|].
    destruct (last_assigned ops k); reflexivity.
Qed.

(** ** The capacity helper *)

Section SuperCeilingFacts.

Variable idx : Z -> Z.
Variable index_max : Z.
Hypothesis idx_small : forall z, 0 <= z < index_max -> idx z = z.

Lemma SuperCeiling_loop_pow2 (n : Z) :
  2 * n <= index_max ->
  forall (fuel : nat) (k : Z),
    0 <= k <= Z.log2_up n ->
    Z.log2_up n - k <= Z.of_nat fuel ->
    SuperCeiling_loop idx fuel (2 ^ k) n = Ok (2 ^ Z.log2_up n).
Proof.
  intros Hn. induction fuel as [|fuel IH]; intros k Hk Hfuel.
  - assert (k = Z.log2_up n) as -> by lia. simpl.
    destruct (Z.ltb_spec (2 ^ Z.log2_up n) n) as [Hlt|]; [|reflexivity].
    assert (1 < n) by (pose proof (Z.pow_pos_nonneg 2 (Z.log2_up n)); lia).
    pose proof (Z.log2_up_spec n). lia.
  - simpl. destruct (Z.ltb_spec (2 ^ k) n) as [Hlt|Hge].
    + assert (0 < 2 ^ k) by (apply Z.pow_pos_nonneg; lia).
      assert (k < Z.log2_up n).
      { destruct (Z.le_gt_cases (Z.log2_up n) k) as [Hle|]; [|assumption].
        apply (Z.pow_le_mono_r 2) in Hle; [|lia].
        pose proof (Z.log2_up_spec n). lia. }
      rewrite Z.shiftl_mul_pow2 by lia.
      replace (2 ^ k * 2 ^ 1) with (2 ^ (k + 1))
        by (rewrite Z.pow_add_r by lia; reflexivity).
      rewrite idx_small.
      * apply IH; lia.
      * rewrite Z.pow_add_r by lia. lia.
    + f_equal. f_equal.
      destruct (Z.le_gt_cases n 0) as [Hn0|Hn0].
      * rewrite Z.log2_up_nonpos in * by assumption. lia.
      * apply Z.log2_up_le_pow2 in Hge; lia.
Qed.

Lemma SuperCeiling_pow2 (fuel : nat) (n : Z) :
  2 * n <= index_max ->
  Z.log2_up n <= Z.of_nat fuel ->
  SuperCeiling idx fuel n = Ok (2 ^ Z.log2_up n).
Proof.
  intros Hn Hfuel. unfold SuperCeiling.
  change 1 with (2 ^ 0). apply SuperCeiling_loop_pow2.
  - assumption.
  - pose proof (Z.log2_up_nonneg n). lia.
  - lia.
Qed.

End SuperCeilingFacts.

Lemma log2_up_ge (n : Z) : n <= 2 ^ Z.log2_up n.
Proof.
  destruct (Z.le_gt_cases n 1).
  - pose proof (Z.pow_pos_nonneg 2 (Z.log2_up n)).
    pose proof (Z.log2_up_nonneg n). lia.
  - pose proof (Z.log2_up_spec n). lia.
Qed.

Lemma log2_up_least (n : Z) (k : Z) : 0 <= k -> n <= 2 ^ k ->
  2 ^ Z.log2_up n <= 2 ^ k.
Proof.
  intros Hk H. apply Z.pow_le_mono_r; [lia|].
  destruct (Z.le_gt_cases n 0).
  - rewrite Z.log2_up_nonpos by assumption. assumption.
  - apply Z.log2_up_le_pow2; assumption.
Qed.

(** ** Folding the operator over a run of leaves *)

Section FoldFacts.

Context {T : Type}.
Variable glue : T -> T -> T.
Variable zero : T.
Variable valid : T -> Prop.
Hypothesis glue_valid : forall a b, valid a -> valid b -> valid (glue a b).
Hypothesis zero_valid : valid zero.
Hypothesis glue_assoc : forall a b c, valid a -> valid b -> valid c ->
  glue a (glue b c) = glue (glue a b) c.
Hypothesis glue_zero_l : forall a, valid a -> glue zero a = a.
Hypothesis glue_zero_r : forall a, valid a -> glue a zero = a.

Lemma fold_glue_cons (x : T) (xs : list T) :
  valid x -> fold_glue glue zero (x :: xs) = glue x (fold_glue glue zero xs).
Proof.
  intros Hx. destruct xs as [|y ys]; simpl.
  - symmetry. apply glue_zero_r. assumption.
  - reflexivity.
Qed.

Lemma fold_glue_valid (xs : list T) :
  Forall valid xs -> valid (fold_glue glue zero xs).
Proof.
  induction 1 as [|x xs Hx Hxs IH].
  - exact zero_valid.
  - rewrite fold_glue_cons by assumption. apply glue_valid; assumption.
Qed.

Lemma fold_glue_app (xs ys : list T) :
  Forall valid xs -> Forall valid ys ->
  fold_glue glue zero (xs ++ ys) =
  glue (fold_glue glue zero xs) (fold_glue glue zero ys).
Proof.
  intros Hxs Hys. induction Hxs as [|x xs Hx Hxs IH].
  - simpl. symmetry. apply glue_zero_l. apply fold_glue_valid. assumption.
  - change ((x :: xs) ++ ys) with (x :: (xs ++ ys)).
    rewrite !fold_glue_cons by assumption. rewrite IH.
    apply glue_assoc; try assumption; apply fold_glue_valid; assumption.
Qed.

End FoldFacts.

Lemma leaves_single {T : Type} (s : SegTree T) (i : Z) :
  leaves s i i = [storage s (N s + i)].
Proof. unfold leaves. replace (i - i + 1) with 1 by lia. reflexivity. Qed.

Lemma leaves_split {T : Type} (s : SegTree T) (i m j : Z) :
  i <= m + 1 -> m <= j ->
  leaves s i j = leaves s i m ++ leaves s (m + 1) j.
Proof.
  intros Him Hmj. unfold leaves.
  replace (j - i + 1) with ((m - i + 1) + (j - (m + 1) + 1)) by lia.
  rewrite seqZ_app by lia. rewrite fmap_app.
  replace (i + (m - i + 1)) with (m + 1) by lia. reflexivity.
Qed.

Lemma leaves_valid {T : Type} (valid : T -> Prop) (s : SegTree T) (i j : Z) :
  Forall valid (A s) -> 0 <= N s + i -> N s + j < Z.of_nat (length (A s)) ->
  Forall valid (leaves s i j).
Proof.
  intros HA Hi Hj. unfold leaves. apply Forall_fmap, Forall_forall.
  intros k Hk. apply elem_of_seqZ in Hk. unfold compose, storage.
  apply sel_valid; [assumption|lia].
Qed.

Lemma max_Zmax (a b : Z) : max a b = Z.max a b.
Proof. unfold max. destruct (Z.gtb_spec a b); lia. Qed.

Lemma min_Zmin (a b : Z) : min a b = Z.min a b.
Proof. unfold min. destruct (Z.ltb_spec a b); lia. Qed.

(** ** The query *)

Section QueryFacts.

Context {T : Type}.
Variable idx : Z -> Z.
Variable index_max : Z.
Hypothesis idx_small : forall z, 0 <= z < index_max -> idx z = z.
Variable glue : T -> T -> T.
Variable zero : T.
Variable max_count : Z.
Hypothesis max_count_small : max_count < index_max.
Variable valid : T -> Prop.
Hypothesis glue_valid : forall a b, valid a -> valid b -> valid (glue a b).
Hypothesis zero_valid : valid zero.
Hypothesis glue_assoc : forall a b c, valid a -> valid b -> valid c ->
  glue a (glue b c) = glue (glue a b) c.
Hypothesis glue_zero_l : forall a, valid a -> glue zero a = a.
Hypothesis glue_zero_r : forall a, valid a -> glue a zero = a.

Variable s : SegTree T.
Hypothesis Hshape : shape zero max_count valid s.
Hypothesis Hnodes : nodes_ok glue s.

Lemma block_leaf (v l r : Z) :
  block s 0 v l r -> l = r /\ v = N s + l /\ N s <= v < 2 * N s.
Proof. unfold block. rewrite pow2_0. lia. Qed.

Lemma block_inner (h : nat) (v l r : Z) :
  block s (S h) v l r ->
  1 <= v < N s /\
  block s h (2 * v) l (l + pow2 h - 1) /\
  block s h (2 * v + 1) (l + pow2 h) r.
Proof.
  unfold block. rewrite pow2_S. pose proof (pow2_pos h).
  intros (Hl & Hv & Hr & HrN). repeat split; nia.
Qed.

Lemma block_slot (h : nat) (v l r : Z) :
  block s h v l r -> 1 <= v < 2 * N s.
Proof.
  unfold block. pose proof (pow2_pos h). intros (Hl & Hv & Hr & HrN). nia.
Qed.

Lemma block_mid (h : nat) (v l r : Z) :
  block s (S h) v l r -> Z.quot (idx (l + r)) 2 = l + pow2 h - 1.
Proof.
  intros Hb. destruct Hshape. pose proof (pow2_pos h).
  destruct Hb as (Hl & Hv & Hr & HrN). rewrite pow2_S in *.
  rewrite idx_small by lia.
  replace (l + r) with (2 * (l + pow2 h - 1) + 1) by lia.
  apply quot2_odd. lia.
Qed.

Lemma leaves_block_valid (h : nat) (v l r i j : Z) :
  block s h v l r -> l <= i -> j <= r -> Forall valid (leaves s i j).
Proof.
  intros (Hl & Hv & Hr & HrN) Hi Hj. destruct Hshape.
  apply leaves_valid; [assumption|lia|lia].
Qed.

(** A node holds the fold of the leaves of its block. *)
Lemma node_fold (h : nat) : forall v l r,
  block s h v l r -> storage s v = fold_glue glue zero (leaves s l r).
Proof.
  induction h as [|h IH]; intros v l r Hb.
  - apply block_leaf in Hb as (-> & -> & _).
    rewrite leaves_single. reflexivity.
  - pose proof (pow2_pos h) as Hp.
    destruct (block_inner _ _ _ _ Hb) as (Hv & Hleft & Hright).
    rewrite (Hnodes v Hv), (IH _ _ _ Hleft), (IH _ _ _ Hright).
    assert (r = l + pow2 (S h) - 1) as Hr by (destruct Hb; tauto).
    rewrite pow2_S in Hr.
    rewrite (leaves_split s l (l + pow2 h - 1) r) by lia.
    replace (l + pow2 h - 1 + 1) with (l + pow2 h) by lia.
    symmetry. apply (fold_glue_app glue zero valid); try assumption.
    + eapply leaves_block_valid; [exact Hleft|lia|lia].
    + eapply leaves_block_valid; [exact Hright|lia|lia].
Qed.

(** The recursion of [f] on a block of the tree, for query bounds inside
    the block: it returns, and for [i <= j] it returns the fold. *)
Lemma f_block (h : nat) : forall (fuel : nat) v l r i j,
  block s h v l r -> l <= i <= r -> l <= j <= r -> (h < fuel)%nat ->
  exists x, f idx glue fuel s v l r i j = Ok x /\ valid x /\
            (i <= j -> x = fold_glue glue zero (leaves s i j)).
Proof.
  induction h as [|h IH]; intros fuel v l r i j Hb Hi Hj Hfuel;
    (destruct fuel as [|fuel]; [lia|]); simpl f.
  - destruct (block_leaf _ _ _ Hb) as (Hlr & Hv & HvN).
    assert (i = l) as -> by lia. assert (j = l) as -> by lia. subst r.
    rewrite !Z.eqb_refl. simpl. destruct Hshape.
    rewrite (rd_sel (identity s)) by lia.
    exists (storage s v). split; [reflexivity|]. split.
    + unfold storage. apply sel_valid; [assumption|lia].
    + intros _. rewrite leaves_single, Hv. reflexivity.
  - pose proof (pow2_pos h) as Hp.
    pose proof (block_slot _ _ _ _ Hb) as HvN.
    destruct (block_inner _ _ _ _ Hb) as (Hv & Hleft & Hright).
    assert (r = l + pow2 (S h) - 1) as Hr by (destruct Hb; tauto).
    assert (r < N s) as HrN by (destruct Hb; tauto).
    assert (0 <= l) as Hl by (destruct Hb; tauto).
    rewrite pow2_S in Hr.
    pose proof Hshape as [_ _ Hcap Hlen Hvalid Hid].
    destruct ((l =? i) && (r =? j)) eqn:Hexact.
    + apply andb_true_iff in Hexact as [->%Z.eqb_eq ->%Z.eqb_eq].
      rewrite (rd_sel (identity s)) by lia.
      exists (storage s v). split; [reflexivity|]. split.
      * unfold storage. apply sel_valid; [assumption|lia].
      * intros _. apply (node_fold (S h)). assumption.
    + rewrite (block_mid _ _ _ _ Hb).
      set (m := l + pow2 h - 1) in *.
      unfold LeftChild, RightChild. rewrite !max_Zmax, !min_Zmin.
      rewrite !(idx_small (2 * v)) by lia.
      rewrite !(idx_small (2 * v + 1)) by lia.
      rewrite !(idx_small (m + 1)) by lia.
      replace (m + 1) with (l + pow2 h) by lia.
      rewrite Hid.
      destruct (Z.leb_spec i m) as [Him|Him];
        destruct (Z.gtb_spec j m) as [Hjm|Hjm].
      * destruct (IH fuel (2 * v) l m i (Z.min m j))
          as (x1 & -> & Hx1 & Hf1); [assumption|lia|lia|lia|].
        destruct (IH fuel (2 * v + 1) (l + pow2 h) r
                    (Z.max i (l + pow2 h)) j)
          as (x2 & -> & Hx2 & Hf2); [assumption|lia|lia|lia|].
        exists (glue x1 x2). split; [reflexivity|]. split.
        { apply glue_valid; assumption. }
        intros Hij. rewrite (leaves_split s i m j) by lia.
        replace (Z.min m j) with m in Hf1 by lia.
        replace (Z.max i (l + pow2 h)) with (m + 1) in Hf2 by lia.
        rewrite Hf1, Hf2 by lia.
        symmetry. apply (fold_glue_app glue zero valid); try assumption.
        { eapply leaves_block_valid; [exact Hleft|lia|lia]. }
        { eapply leaves_block_valid; [exact Hright|lia|lia]. }
      * destruct (IH fuel (2 * v) l m i (Z.min m j))
          as (x1 & -> & Hx1 & Hf1); [assumption|lia|lia|lia|].
        exists (glue x1 zero). split; [reflexivity|].
        rewrite glue_zero_r by assumption. split; [assumption|].
        replace (Z.min m j) with j in Hf1 by lia. assumption.
      * destruct (IH fuel (2 * v + 1) (l + pow2 h) r
                    (Z.max i (l + pow2 h)) j)
          as (x2 & -> & Hx2 & Hf2); [assumption|lia|lia|lia|].
        exists (glue zero x2). split; [reflexivity|].
        rewrite glue_zero_l by assumption. split; [assumption|].
        replace (Z.max i (l + pow2 h)) with i in Hf2 by lia. assumption.
      * exists (glue zero zero). split; [reflexivity|].
        rewrite glue_zero_l by assumption. split; [assumption|lia].
Qed.

End QueryFacts.

Lemma anc_zero (p : Z) : anc p 0 -> p = 0.
Proof.
  intros H. remember 0 as z eqn:Hz. induction H as [|p i H IH].
  - reflexivity.
  - subst i. apply IH. reflexivity.
Qed.

Lemma anc_inv (p i : Z) : anc p i -> p = i \/ anc p (Z.quot i 2).
Proof. intros H. inversion H; subst; auto. Qed.

(** ** Assignment *)

Section AssignFacts.

Context {T : Type}.
Variable idx : Z -> Z.
Variable index_max : Z.
Hypothesis idx_small : forall z, 0 <= z < index_max -> idx z = z.
Variable glue : T -> T -> T.
Variable zero : T.
Variable max_count : Z.
Hypothesis max_count_small : max_count < index_max.
Variable valid : T -> Prop.
Hypothesis glue_valid : forall a b, valid a -> valid b -> valid (glue a b).

(** The ancestor walk, entered at node [i] of an array in which every
    internal node off the remaining path is already consistent. *)
Lemma Assign_loop_restores (d : T) (size : Z) :
  2 * size < index_max ->
  forall (fuel : nat) (A : list T) (i : Z),
    Z.of_nat (length A) = 2 * size ->
    Forall valid A ->
    0 <= i < size ->
    i < pow2 fuel ->
    (forall p, 1 <= p < size -> ~ anc p i ->
       sel d A p = glue (sel d A (2 * p)) (sel d A (2 * p + 1))) ->
    exists A',
      Assign_loop idx glue fuel A i = Ok A' /\
      length A' = length A /\
      Forall valid A' /\
      (forall p, 1 <= p < size ->
         sel d A' p = glue (sel d A' (2 * p)) (sel d A' (2 * p + 1))) /\
      (forall q, size <= q -> sel d A' q = sel d A q).
Proof.
  intros Hsize. induction fuel as [|fuel IH]; intros A i Hlen HA Hi Hfuel Hoff.
  - rewrite pow2_0 in Hfuel. assert (i = 0) as -> by lia. simpl.
    exists A. repeat split; try assumption; try reflexivity.
    intros p Hp. apply Hoff; [assumption|].
    intros Hanc. apply anc_zero in Hanc. lia.
  - simpl. destruct (Z.gtb_spec i 0) as [Hpos|Hzero].
    + unfold LeftChild, RightChild, Parent.
      rewrite !(idx_small (2 * i)) by lia.
      rewrite !(idx_small (2 * i + 1)) by lia.
      rewrite !(rd_sel d) by lia. simpl.
      rewrite wr_ok by lia. simpl.
      set (y := glue (sel d A (2 * i)) (sel d A (2 * i + 1))).
      assert (valid y) as Hy
        by (apply glue_valid; apply sel_valid; (assumption || lia)).
      pose proof (quot2_lt i Hpos) as Hq.
      destruct (IH (<[Z.to_nat i := y]> A) (Z.quot i 2))
        as (A' & Hrun & Hlen' & HA' & Hall & Hleaves).
      * rewrite length_insert. assumption.
      * apply Forall_insert; assumption.
      * lia.
      * rewrite pow2_S in Hfuel.
        rewrite Z.quot_div_nonneg by lia.
        apply Z.div_lt_upper_bound; lia.
      * intros p Hp Hanc.
        destruct (Z.eq_dec p i) as [->|Hne].
        -- rewrite sel_insert_eq by lia.
           rewrite !sel_insert_ne by lia. reflexivity.
        -- assert (~ anc p i) as Hoffp.
           { intros H. apply anc_inv in H as [?|?]; auto. }
           assert (2 * p <> i).
           { intros <-. apply Hanc. rewrite quot2_even by lia.
             constructor. }
           assert (2 * p + 1 <> i).
           { intros <-. apply Hanc. rewrite quot2_odd by lia.
             constructor. }
           rewrite !sel_insert_ne by lia. apply Hoff; assumption.
      * exists A'. split; [exact Hrun|].
        rewrite length_insert in Hlen'.
        repeat split; try assumption.
        intros q Hq'. rewrite Hleaves by assumption.
        apply sel_insert_ne; lia.
    + assert (i = 0) as -> by lia.
      exists A. repeat split; try assumption; try reflexivity.
      intros p Hp. apply Hoff; [assumption|].
      intros Hanc. apply anc_zero in Hanc. lia.
Qed.

(** [Assign] at a leaf of a consistent tree: it completes, stores the
    value, leaves the other leaves alone and restores every internal
    node. *)
Lemma Assign_leaf (fuel : nat) (s : SegTree T) (i : Z) (x : T) :
  shape zero max_count valid s -> nodes_ok glue s ->
  0 <= i < N s -> valid x -> Z.log2 (N s) < Z.of_nat fuel ->
  exists s',
    Assign idx glue fuel s i x = Ok s' /\
    shape zero max_count valid s' /\ nodes_ok glue s' /\
    n s' = n s /\ N s' = N s /\ identity s' = identity s /\
    storage s' (N s + i) = x /\
    (forall k, k <> i -> 0 <= k -> storage s' (N s + k) = storage s (N s + k)).
Proof.
  intros Hsh Hnodes Hi Hx Hfuel.
  pose proof Hsh as [[h Hpow] Hn Hcap Hlen Hvalid Hid].
  unfold Assign. rewrite idx_small by lia.
  rewrite wr_ok by lia. simpl.
  pose proof (quot2_lt (i + N s) ltac:(lia)) as Hq.
  assert (Z.quot (i + N s) 2 < N s) as HqN.
  { rewrite Z.quot_div_nonneg by lia. apply Z.div_lt_upper_bound; lia. }
  destruct (Assign_loop_restores (identity s) (N s) ltac:(lia) fuel
              (<[Z.to_nat (i + N s) := x]> (A s)) (Parent (i + N s)))
    as (A' & Hrun & Hlen' & HA' & Hall & Hleaves).
  - rewrite length_insert. assumption.
  - apply Forall_insert; assumption.
  - unfold Parent. lia.
  - unfold Parent. rewrite Hpow, pow2_log2 in Hfuel.
    assert (pow2 h < pow2 fuel) by (apply pow2_lt; lia). lia.
  - intros p Hp Hanc. unfold Parent in Hanc.
    assert (2 * p <> i + N s).
    { intros Heq. apply Hanc. rewrite <- Heq, quot2_even by lia.
      constructor. }
    assert (2 * p + 1 <> i + N s).
    { intros Heq. apply Hanc. rewrite <- Heq, quot2_odd by lia.
      constructor. }
    rewrite !sel_insert_ne by lia. apply Hnodes. assumption.
  - rewrite Hrun. simpl. eexists. split; [reflexivity|].
    rewrite length_insert in Hlen'.
    repeat split; simpl; try assumption.
    + exists h. assumption.
    + lia.
    + lia.
    + lia.
    + unfold storage. simpl. rewrite Hleaves by lia.
      replace (N s + i) with (i + N s) by lia.
      apply sel_insert_eq. lia.
    + intros k Hk Hk0. unfold storage. simpl. rewrite Hleaves by lia.
      apply sel_insert_ne; lia.
Qed.

End AssignFacts.

Lemma Assign_all_app {T : Type} idx (glue : T -> T -> T) (fuel : nat)
    (ops1 ops2 : list (Z * T)) : forall s,
  Assign_all idx glue fuel s (ops1 ++ ops2) =
  (s' ← Assign_all idx glue fuel s ops1; Assign_all idx glue fuel s' ops2).
Proof.
  induction ops1 as [|[i x] ops1 IH]; intros s; simpl.
  - reflexivity.
  - destruct (Assign idx glue fuel s i x) as [s1| |]; simpl.
    + apply IH.
    + reflexivity.
    + reflexivity.
Qed.

Lemma last_assigned_outside {T : Type} (valid : T -> Prop) (bound : Z)
    (ops : list (Z * T)) (k : Z) :
  Forall (valid_op valid bound) ops -> bound <= k ->
  last_assigned ops k = None.
Proof.
  intros Hops Hk. induction Hops as [|[i x] ops [Hi _] _ IH]; simpl.
  - reflexivity.
  - rewrite IH. simpl in Hi.
    destruct (Z.eqb_spec i k); [lia|reflexivity].
Qed.

Lemma valid_op_mono {T : Type} (valid : T -> Prop) (b1 b2 : Z)
    (ops : list (Z * T)) :
  b1 <= b2 -> Forall (valid_op valid b1) ops -> Forall (valid_op valid b2) ops.
Proof.
  intros Hb Hall. eapply Forall_impl; [exact Hall|].
  intros [i x] [Hi Hx]. split; simpl in *.
  - lia.
  - assumption.
Qed.

(** ** Construction, and the states a sequence of assignments reaches *)

Section BuildFacts.

Context {T : Type}.
Variable idx : Z -> Z.
Variable index_max : Z.
Hypothesis idx_small : forall z, 0 <= z < index_max -> idx z = z.
Variable glue : T -> T -> T.
Variable zero : T.
Variable max_count : Z.
Hypothesis max_count_small : max_count < index_max.
Variable valid : T -> Prop.
Hypothesis glue_valid : forall a b, valid a -> valid b -> valid (glue a b).
Hypothesis zero_valid : valid zero.
Hypothesis glue_zero_l : forall a, valid a -> glue zero a = a.

Lemma SegTreeInit_fits (fuel : nat) (n : Z) :
  fits max_count n -> Z.log2_up n <= Z.of_nat fuel ->
  SegTreeInit idx zero max_count fuel n =
  Ok (mkSegTree zero n (2 ^ Z.log2_up n)
        (replicate (Z.to_nat (2 * 2 ^ Z.log2_up n)) zero)).
Proof.
  intros [Hn Hcap] Hfuel. unfold SegTreeInit.
  pose proof (log2_up_ge n) as Hge.
  pose proof (Z.pow_pos_nonneg 2 (Z.log2_up n) ltac:(lia)
                (Z.log2_up_nonneg n)) as Hpos.
  rewrite (SuperCeiling_pow2 idx index_max idx_small) by lia. simpl.
  rewrite idx_small by lia.
  destruct (Z.leb_spec 0 (2 * 2 ^ Z.log2_up n)); [|lia].
  destruct (Z.leb_spec (2 * 2 ^ Z.log2_up n) max_count); [|lia].
  reflexivity.
Qed.

Lemma sel_replicate (c : nat) (i : Z) : sel zero (replicate c zero) i = zero.
Proof.
  unfold sel. destruct (replicate c zero !! Z.to_nat i) as [y|] eqn:Hy.
  - apply lookup_replicate in Hy as [-> _]. reflexivity.
  - reflexivity.
Qed.

Lemma fresh_shape (n : Z) :
  fits max_count n ->
  let s := mkSegTree zero n (2 ^ Z.log2_up n)
             (replicate (Z.to_nat (2 * 2 ^ Z.log2_up n)) zero) in
  shape zero max_count valid s /\ nodes_ok glue s /\
  (forall i, storage s i = zero).
Proof.
  intros [Hn Hcap] s.
  pose proof (log2_up_ge n) as Hge.
  pose proof (Z.log2_up_nonneg n) as Hlog.
  pose proof (Z.pow_pos_nonneg 2 (Z.log2_up n) ltac:(lia) Hlog) as Hpos.
  assert (forall i, storage s i = zero) as Hall
    by (intros i; apply sel_replicate).
  split; [|split].
  - split; simpl.
    + exists (Z.to_nat (Z.log2_up n)). unfold pow2.
      rewrite Z2Nat.id by assumption. reflexivity.
    + lia.
    + assumption.
    + rewrite length_replicate. lia.
    + apply Forall_replicate. exact zero_valid.
    + reflexivity.
  - intros i _. rewrite !Hall. symmetry. apply glue_zero_l, zero_valid.
  - exact Hall.
Qed.

(** The states reached from a fresh tree by assignments to leaves. *)
Lemma build_reaches (fuel : nat) (size : Z) (ops : list (Z * T)) :
  fits max_count size -> Z.log2_up size < Z.of_nat fuel ->
  Forall (valid_op valid (2 ^ Z.log2_up size)) ops ->
  exists s,
    build idx glue zero max_count fuel size ops = Ok s /\
    shape zero max_count valid s /\ nodes_ok glue s /\
    n s = size /\ N s = 2 ^ Z.log2_up size /\
    (forall k, 0 <= k -> storage s (N s + k) = current zero ops k).
Proof.
  intros Hfits Hfuel. unfold build.
  rewrite SegTreeInit_fits by (assumption || lia). simpl.
  induction ops as [|[i x] ops IH] using rev_ind; intros Hops.
  - simpl. destruct (fresh_shape size Hfits) as (Hsh & Hnodes & Hall).
    eexists. split; [reflexivity|].
    split; [exact Hsh|]. split; [exact Hnodes|].
    split; [reflexivity|]. split; [reflexivity|].
    intros k _. apply Hall.
  - apply Forall_app in Hops as [Hops Hop].
    apply Forall_singleton in Hop as [Hi Hx]. simpl in Hi, Hx.
    destruct (IH Hops) as (s & Hrun & Hsh & Hnodes & Hn & HN & Hleaves).
    rewrite Assign_all_app, Hrun. simpl.
    destruct (Assign_leaf idx index_max idx_small glue zero max_count
                max_count_small valid glue_valid fuel s i x)
      as (s' & Hrun' & Hsh' & Hnodes' & Hn' & HN' & Hid' & Hleaf & Hothers);
      try assumption.
    + lia.
    + rewrite HN, Z.log2_pow2 by apply Z.log2_up_nonneg. assumption.
    + rewrite Hrun'. simpl. exists s'. split; [reflexivity|].
      split; [exact Hsh'|]. split; [exact Hnodes'|].
      split; [congruence|]. split; [congruence|].
      intros k Hk. unfold current. rewrite last_assigned_snoc, HN'.
      destruct (Z.eqb_spec i k) as [->|Hne].
      * exact Hleaf.
      * rewrite Hothers by auto. apply Hleaves. assumption.
Qed.

End BuildFacts.

(** ** The index types and the [int] operator meet the assumptions *)

Lemma size_t_small (z : Z) : 0 <= z < 2 ^ 64 -> size_t z = z.
Proof. intros H. unfold size_t. apply Z.mod_small. assumption. Qed.

Lemma int_small (z : Z) : int_range z -> int z = z.
Proof.
  unfold int_range, int. intros H. rewrite Z.mod_small; lia.
Qed.

Lemma int_in_range (z : Z) : int_range (int z).
Proof.
  unfold int_range, int.
  pose proof (Z.mod_pos_bound (z + 2 ^ 31) (2 ^ 32) eq_refl). lia.
Qed.

Lemma int_add_int_l (a b : Z) : int (int a + b) = int (a + b).
Proof.
  unfold int. f_equal.
  replace ((a + 2 ^ 31) mod 2 ^ 32 - 2 ^ 31 + b + 2 ^ 31)
    with ((a + 2 ^ 31) mod 2 ^ 32 + b) by lia.
  rewrite Zplus_mod_idemp_l. f_equal. lia.
Qed.

Lemma int_add_int_r (a b : Z) : int (a + int b) = int (a + b).
Proof. rewrite (Z.add_comm a), int_add_int_l. f_equal. lia. Qed.

Lemma size_t_index_type (sizeof_T : Z) :
  1 <= sizeof_T -> index_type size_t (2 ^ 64) (PTRDIFF_MAX / sizeof_T).
Proof.
  intros H. split.
  - exact size_t_small.
  - assert (PTRDIFF_MAX / sizeof_T <= PTRDIFF_MAX / 1)
      by (apply Z.div_le_compat_l; unfold PTRDIFF_MAX; lia).
    rewrite Z.div_1_r in *. unfold PTRDIFF_MAX in *. lia.
Qed.

Lemma C_index_type : index_type size_t (2 ^ 64) (SIZE_MAX / sizeof_int).
Proof.
  split.
  - exact size_t_small.
  - reflexivity.
Qed.

Lemma int_index_type : index_type int (2 ^ 31) INT_MAX.
Proof.
  split.
  - intros z Hz. apply int_small. unfold int_range. lia.
  - reflexivity.
Qed.

(** In [src/segtree.cpp] the count handed to [resize] is an [int], so the
    limit [max_size()] is never the binding one. *)
Lemma Cpp_Segtree_count (fuel : nat) (size : Z) :
  Cpp.Segtree fuel size = SegTreeInit int 0 INT_MAX fuel size.
Proof.
  unfold Cpp.Segtree, SegTreeInit.
  destruct (SuperCeiling int fuel size) as [p| |]; try reflexivity.
  cbn [mbind result_bind].
  pose proof (int_in_range (2 * p)) as Hrange. unfold int_range in Hrange.
  replace (int (2 * p) <=? PTRDIFF_MAX / sizeof_int) with true.
  - replace (int (2 * p) <=? INT_MAX) with true; [reflexivity|].
    symmetry. apply Z.leb_le. unfold INT_MAX. lia.
  - symmetry. apply Z.leb_le.
    change (PTRDIFF_MAX / sizeof_int) with (2 ^ 61 - 1). lia.
Qed.

Lemma glue_int_operator : operator glue_int 0 int_range.
Proof.
  split; unfold glue_int.
  - intros a b _ _. apply int_in_range.
  - unfold int_range. lia.
  - intros a b c _ _ _. rewrite int_add_int_l, int_add_int_r. f_equal. lia.
  - intros a Ha. apply int_small. assumption.
  - intros a Ha. rewrite Z.add_0_r. apply int_small. assumption.
Qed.

Lemma C_fits (n : Z) : 0 <= n <= 2 ^ 60 -> fits (SIZE_MAX / sizeof_int) n.
Proof.
  intros Hn. split; [lia|].
  assert (2 ^ Z.log2_up n <= 2 ^ 60) by (apply log2_up_least; lia).
  change (SIZE_MAX / sizeof_int) with (2 ^ 62 - 1). lia.
Qed.

Lemma C_main_tree (fuel : nat) :
  (4 <= fuel)%nat -> C.main_tree fuel = Ok C.demo_tree.
Proof.
  intros H. do 4 (destruct fuel as [|fuel]; [lia|]).
  vm_compute. reflexivity.
Qed.

(** ** The public query on a consistent tree *)

Lemma RangeSum_inside {T : Type} idx index_max max_count
    (glue : T -> T -> T) zero valid :
  index_type idx index_max max_count -> operator glue zero valid ->
  forall (fuel : nat) (s : SegTree T) (i j : Z),
    shape zero max_count valid s -> nodes_ok glue s ->
    0 <= i < N s -> 0 <= j < N s -> Z.log2 (N s) < Z.of_nat fuel ->
    exists x, RangeSum idx glue fuel s i j = Ok x /\ valid x /\
              (i <= j -> x = fold_glue glue zero (leaves s i j)).
Proof.
  intros [Hidx Hcount] [Hv Hzv Hassoc Hzl Hzr] fuel s i j Hsh Hnodes Hi Hj Hfuel.
  pose proof Hsh as [[h Hpow] Hn Hcap Hlen Hvalid Hid].
  unfold RangeSum. rewrite Hidx by lia.
  rewrite Hpow, pow2_log2 in Hfuel.
  eapply (f_block idx index_max Hidx glue zero max_count Hcount valid
            Hv Hzv Hassoc Hzl Hzr s Hsh Hnodes h).
  - unfold block. lia.
  - lia.
  - lia.
  - lia.
Qed.

Lemma leaves_current {T : Type} (zero : T) (s : SegTree T)
    (ops : list (Z * T)) (i j : Z) :
  0 <= i ->
  (forall k, 0 <= k -> storage s (N s + k) = current zero ops k) ->
  leaves s i j = current zero ops <$> seqZ i (j - i + 1).
Proof.
  intros Hi Hleaves. unfold leaves. apply list_fmap_ext.
  intros m k Hk. apply Hleaves.
  apply lookup_seqZ in Hk. lia.
Qed.

(** * The claims *)

(** C1.  On the tree built with a logical size [size] that can be
    allocated, an associative operator [glue] with identity [zero], and
    any sequence [ops] of assignments to positions in [[0, size)], the
    query [RangeSum(i, j)] with [0 <= i <= j < size] returns
    [glue x_i (glue x_(i+1) (... (glue x_(j-1) x_j)))], the right-nested
    fold, in index order, of the current values [x_k] of the logical
    positions [i..j].  Commutativity is not assumed. *)
Theorem RangeSum_is_fold {T : Type} idx index_max max_count
    (glue : T -> T -> T) zero valid :
  index_type idx index_max max_count -> operator glue zero valid ->
  forall (fuel : nat) (size : Z) (ops : list (Z * T)) (i j : Z),
    fits max_count size -> Z.log2_up size < Z.of_nat fuel ->
    Forall (valid_op valid size) ops ->
    0 <= i <= j /\ j < size ->
    exists s,
      build idx glue zero max_count fuel size ops = Ok s /\
      RangeSum idx glue fuel s i j =
      Ok (fold_glue glue zero (current zero ops <$> seqZ i (j - i + 1))).
Proof.
  intros Hidx Hop fuel size ops i j Hfits Hfuel Hops Hij.
  pose proof Hidx as [Hsmall Hcount]. pose proof Hop as [Hv Hzv _ Hzl _].
  pose proof (log2_up_ge size) as Hge.
  destruct (build_reaches idx index_max Hsmall glue zero max_count Hcount
              valid Hv Hzv Hzl fuel size ops Hfits Hfuel)
    as (s & Hrun & Hsh & Hnodes & Hn & HN & Hleaves).
  { apply (valid_op_mono valid size); assumption. }
  exists s. split; [exact Hrun|].
  destruct (RangeSum_inside idx index_max max_count glue zero valid Hidx Hop
              fuel s i j Hsh Hnodes) as (x & -> & _ & Hx).
  - lia.
  - lia.
  - rewrite HN, Z.log2_pow2 by apply Z.log2_up_nonneg. assumption.
  - rewrite Hx by lia. f_equal. f_equal.
    apply leaves_current; [lia|assumption].
Qed.

Lemma RangeSum_is_fold_witness :
  exists s,
    build size_t glue_int 0 (SIZE_MAX / sizeof_int) 64 7 [(3, 7); (4, 1)]
      = Ok s /\
    RangeSum size_t glue_int 64 s 2 6 =
    Ok (fold_glue glue_int 0
          (current 0 [(3, 7); (4, 1)] <$> seqZ 2 (6 - 2 + 1))).
Proof.
  apply (RangeSum_is_fold size_t (2 ^ 64) (SIZE_MAX / sizeof_int)
           glue_int 0 int_range C_index_type glue_int_operator).
  - apply C_fits. lia.
  - vm_compute. reflexivity.
  - repeat constructor; simpl; unfold int_range; lia.
  - lia.
Defined.

(** C2.  After construction and any sequence [ops] of assignments to
    positions in [[0, size)], the array has its [2*N] slots and: every
    internal node [i] in [[1, N)] holds [glue] of slots [2i] and [2i+1];
    the leaf of every logical position [k < size] holds the value last
    assigned to [k], or the identity when [k] was never assigned; every
    padding leaf in [[N+size, 2N)] holds the identity. *)
Theorem invariants_after_assignments {T : Type} idx index_max max_count
    (glue : T -> T -> T) zero valid :
  index_type idx index_max max_count -> operator glue zero valid ->
  forall (fuel : nat) (size : Z) (ops : list (Z * T)),
    fits max_count size -> Z.log2_up size < Z.of_nat fuel ->
    Forall (valid_op valid size) ops ->
    exists s,
      build idx glue zero max_count fuel size ops = Ok s /\
      n s = size /\ identity s = zero /\
      Z.of_nat (length (A s)) = 2 * N s /\
      nodes_ok glue s /\
      (forall k, 0 <= k < size ->
         storage s (N s + k) = default (identity s) (last_assigned ops k)) /\
      padding_ok s.
Proof.
  intros Hidx Hop fuel size ops Hfits Hfuel Hops.
  pose proof Hidx as [Hsmall Hcount]. pose proof Hop as [Hv Hzv _ Hzl _].
  pose proof (log2_up_ge size) as Hge.
  destruct (build_reaches idx index_max Hsmall glue zero max_count Hcount
              valid Hv Hzv Hzl fuel size ops Hfits Hfuel)
    as (s & Hrun & Hsh & Hnodes & Hn & HN & Hleaves).
  { apply (valid_op_mono valid size); assumption. }
  pose proof Hsh as [_ _ _ Hlen _ Hid].
  exists s. repeat (split; [assumption|]). split.
  - intros k Hk. rewrite Hid. apply Hleaves. lia.
  - intros i Hi. destruct Hfits as [Hsize _].
    replace i with (N s + (i - N s)) by lia.
    rewrite Hleaves by lia. unfold current.
    rewrite (last_assigned_outside valid size) by (assumption || lia).
    rewrite Hid. reflexivity.
Qed.

Lemma invariants_after_assignments_witness :
  exists s,
    build size_t glue_int 0 (SIZE_MAX / sizeof_int) 64 7 [(3, 7); (4, 1)]
      = Ok s /\
    n s = 7 /\ identity s = 0 /\
    Z.of_nat (length (A s)) = 2 * N s /\
    nodes_ok glue_int s /\
    (forall k, 0 <= k < 7 ->
       storage s (N s + k) =
       default (identity s) (last_assigned [(3, 7); (4, 1)] k)) /\
    padding_ok s.
Proof.
  apply (invariants_after_assignments size_t (2 ^ 64)
           (SIZE_MAX / sizeof_int) glue_int 0 int_range
           C_index_type glue_int_operator).
  - apply C_fits. lia.
  - vm_compute. reflexivity.
  - repeat constructor; simpl; unfold int_range; lia.
Defined.

(** C5.  The demonstration: logical size 7, integer addition, identity 0,
    [Assign(3, 7)], [Assign(4, 1)]; then [RangeSum(2,7)] is 8,
    [RangeSum(0,3)] is 7, [RangeSum(4,5)] is 1 and [RangeSum(5,5)] is 0,
    in [src/c/segtree.c], [src/segtree.cpp] and
    [src/cpp/generic_segtree.cpp] alike. *)
Theorem main_scenario (fuel : nat) :
  (4 <= fuel)%nat ->
  (C.main_query fuel 2 7 = Ok 8 /\ C.main_query fuel 0 3 = Ok 7 /\
   C.main_query fuel 4 5 = Ok 1 /\ C.main_query fuel 5 5 = Ok 0) /\
  (Cpp.main_query fuel 2 7 = Ok 8 /\ Cpp.main_query fuel 0 3 = Ok 7 /\
   Cpp.main_query fuel 4 5 = Ok 1 /\ Cpp.main_query fuel 5 5 = Ok 0) /\
  (Generic.main_query fuel 2 7 = Ok 8 /\ Generic.main_query fuel 0 3 = Ok 7 /\
   Generic.main_query fuel 4 5 = Ok 1 /\ Generic.main_query fuel 5 5 = Ok 0).
Proof.
  intros H. do 4 (destruct fuel as [|fuel]; [lia|]).
  vm_compute. repeat split.
Qed.

Lemma main_scenario_witness :
  (C.main_query 64 2 7 = Ok 8 /\ C.main_query 64 0 3 = Ok 7 /\
   C.main_query 64 4 5 = Ok 1 /\ C.main_query 64 5 5 = Ok 0) /\
  (Cpp.main_query 64 2 7 = Ok 8 /\ Cpp.main_query 64 0 3 = Ok 7 /\
   Cpp.main_query 64 4 5 = Ok 1 /\ Cpp.main_query 64 5 5 = Ok 0) /\
  (Generic.main_query 64 2 7 = Ok 8 /\ Generic.main_query 64 0 3 = Ok 7 /\
   Generic.main_query 64 4 5 = Ok 1 /\ Generic.main_query 64 5 5 = Ok 0).
Proof. apply (main_scenario 64). lia. Defined.

(** C6.  Whenever construction returns a tree, its capacity [N] is
    [SuperCeiling(size)], its array has the [2*N] slots the program
    computes, every slot holds the identity, and the identity is the fixed
    element [zero] (the literal 0 of the source).  For a logical size
    whose [2*N] slots can be allocated construction does return a tree,
    and [2*N] is the exact product. *)
Theorem construction_state {T : Type} idx index_max max_count (zero : T) :
  index_type idx index_max max_count ->
  forall (fuel : nat) (size : Z),
    (forall s,
       SegTreeInit idx zero max_count fuel size = Ok s ->
       n s = size /\
       SuperCeiling idx fuel size = Ok (N s) /\
       Z.of_nat (length (A s)) = idx (2 * N s) /\
       Forall (fun a => a = identity s) (A s) /\
       identity s = zero) /\
    (fits max_count size -> Z.log2_up size <= Z.of_nat fuel ->
     exists s,
       SegTreeInit idx zero max_count fuel size = Ok s /\
       Z.of_nat (length (A s)) = 2 * N s).
Proof.
  intros [Hsmall Hcount] fuel size. split.
  - intros s H. unfold SegTreeInit in H.
    destruct (SuperCeiling idx fuel size) as [p| |];
      cbn [mbind result_bind] in H; try discriminate.
    destruct (Z.leb_spec 0 (idx (2 * p))) as [Hpos|];
      cbn [andb] in H; [|discriminate].
    destruct (idx (2 * p) <=? max_count); [|discriminate].
    injection H as <-. cbn [n N A identity].
    split; [reflexivity|]. split; [reflexivity|].
    split; [rewrite length_replicate; lia|].
    split; [|reflexivity]. apply Forall_replicate. reflexivity.
  - intros Hfits Hfuel.
    pose proof (log2_up_ge size) as Hge.
    pose proof (Z.log2_up_nonneg size) as Hlog.
    pose proof (Z.pow_pos_nonneg 2 (Z.log2_up size) ltac:(lia) Hlog) as Hpos.
    eexists. split.
    + apply (SegTreeInit_fits idx index_max Hsmall zero max_count Hcount);
        assumption.
    + simpl. rewrite length_replicate. lia.
Qed.

Lemma construction_state_witness :
  exists s,
    C.SegTreeInit 64 7 = Ok s /\
    n s = 7 /\
    C.SuperCeiling 64 7 = Ok (N s) /\
    Z.of_nat (length (A s)) = 2 * N s /\
    Forall (fun a => a = identity s) (A s) /\
    identity s = 0.
Proof.
  destruct (construction_state size_t (2 ^ 64) (SIZE_MAX / sizeof_int) 0
              C_index_type 64%nat 7) as [Hstate Hreturns].
  destruct Hreturns as (s & Hrun & Hlen).
  - apply C_fits. lia.
  - vm_compute. discriminate.
  - exists s. destruct (Hstate s Hrun) as (Hn & HN & _ & Hall & Hid).
    repeat split; assumption.
Defined.

Lemma SuperCeiling_loop_unfold idx (fuel : nat) (p n : Z) :
  SuperCeiling_loop idx fuel p n =
  if p <? n then
    match fuel with
    | O => Timeout
    | S fuel' => SuperCeiling_loop idx fuel' (idx (Z.shiftl p 1)) n
    end
  else Ok p.
Proof. destruct fuel; reflexivity. Qed.

(** Once [p] has wrapped to 0 the loop of [SuperCeiling] cannot exit. *)
Lemma SuperCeiling_loop_stuck (n : Z) : 0 < n ->
  forall fuel : nat, SuperCeiling_loop size_t fuel 0 n = Timeout.
Proof.
  intros Hn. induction fuel as [|fuel IH];
    rewrite SuperCeiling_loop_unfold;
    (destruct (Z.ltb_spec 0 n); [|lia]).
  - reflexivity.
  - exact IH.
Qed.

Lemma SuperCeiling_loop_too_big (k : nat) : (k <= 63)%nat ->
  forall fuel : nat,
    SuperCeiling_loop size_t fuel (2 ^ (63 - Z.of_nat k)) (2 ^ 63 + 1)
    = Timeout.
Proof.
  induction k as [|k IH]; intros Hk fuel; rewrite SuperCeiling_loop_unfold.
  - change (2 ^ (63 - Z.of_nat 0)) with (2 ^ 63).
    destruct (Z.ltb_spec (2 ^ 63) (2 ^ 63 + 1)); [|lia].
    destruct fuel as [|fuel]; [reflexivity|].
    change (size_t (Z.shiftl (2 ^ 63) 1)) with 0.
    apply SuperCeiling_loop_stuck. lia.
  - assert (0 < 2 ^ (63 - Z.of_nat (S k)))
      by (apply Z.pow_pos_nonneg; lia).
    assert (2 ^ (63 - Z.of_nat k) = 2 * 2 ^ (63 - Z.of_nat (S k))) as Hdouble.
    { replace (63 - Z.of_nat k) with (Z.succ (63 - Z.of_nat (S k))) by lia.
      apply Z.pow_succ_r. lia. }
    assert (2 ^ (63 - Z.of_nat k) <= 2 ^ 63)
      by (apply Z.pow_le_mono_r; lia).
    destruct (Z.ltb_spec (2 ^ (63 - Z.of_nat (S k))) (2 ^ 63 + 1)); [|lia].
    destruct fuel as [|fuel]; [reflexivity|].
    rewrite Z.shiftl_mul_pow2 by lia.
    replace (2 ^ (63 - Z.of_nat (S k)) * 2 ^ 1)
      with (2 ^ (63 - Z.of_nat k)) by lia.
    rewrite size_t_small by lia.
    apply IH. lia.
Qed.

(** C7, as amended.  For every [n >= 0] whose double is within the range of the index
    type (at most 2^63 for [size_t], at most 2^30 for [int]),
    [SuperCeiling(n)] is the smallest power of two that is at least [n]:
    a power of two, at least [n], equal to [n] when [n] is a power of
    two, 1 for [n = 0], and monotonic in [n]. *)
Theorem SuperCeiling_rounds_up idx index_max :
  (forall z, 0 <= z < index_max -> idx z = z) ->
  forall (fuel : nat) (n : Z),
    0 <= n -> 2 * n <= index_max -> Z.log2_up n <= Z.of_nat fuel ->
    exists p,
      SuperCeiling idx fuel n = Ok p /\
      (exists k, 0 <= k /\ p = 2 ^ k) /\
      n <= p /\
      (forall k, 0 <= k -> n <= 2 ^ k -> p <= 2 ^ k) /\
      (forall k, 0 <= k -> n = 2 ^ k -> p = n) /\
      (n = 0 -> p = 1) /\
      (forall n', 0 <= n' <= n ->
         exists p', SuperCeiling idx fuel n' = Ok p' /\ p' <= p).
Proof.
  intros Hsmall fuel n Hn Hmax Hfuel.
  exists (2 ^ Z.log2_up n). split; [|split; [|split; [|split; [|split; [|split]]]]].
  - apply (SuperCeiling_pow2 idx index_max Hsmall); assumption.
  - exists (Z.log2_up n). split; [apply Z.log2_up_nonneg|reflexivity].
  - apply log2_up_ge.
  - intros k Hk Hle. apply log2_up_least; assumption.
  - intros k Hk ->. rewrite Z.log2_up_pow2 by assumption. reflexivity.
  - intros ->. reflexivity.
  - intros n' Hn'. exists (2 ^ Z.log2_up n'). split.
    + apply (SuperCeiling_pow2 idx index_max Hsmall); [lia|].
      pose proof (Z.log2_up_le_mono n' n). lia.
    + apply Z.pow_le_mono_r; [lia|]. apply Z.log2_up_le_mono. lia.
Qed.

Lemma SuperCeiling_rounds_up_witness :
  exists p,
    C.SuperCeiling 64 7 = Ok p /\
    (exists k, 0 <= k /\ p = 2 ^ k) /\
    7 <= p /\
    (forall k, 0 <= k -> 7 <= 2 ^ k -> p <= 2 ^ k) /\
    (forall k, 0 <= k -> 7 = 2 ^ k -> p = 7) /\
    (7 = 0 -> p = 1) /\
    (forall n', 0 <= n' <= 7 ->
       exists p', C.SuperCeiling 64 n' = Ok p' /\ p' <= p).
Proof.
  apply (SuperCeiling_rounds_up size_t (2 ^ 64) size_t_small).
  - lia.
  - lia.
  - vm_compute. discriminate.
Defined.

(** C7, as stated, fails in [src/c/segtree.c]: 2^63+1 is a [size_t], no
    power of two at or above it is one, and the loop never exits (after
    2^63 the shift yields 0, which stays below [n]). *)
Lemma SuperCeiling_no_result_above_half :
  ~ exists (fuel : nat) (p : Z), C.SuperCeiling fuel (2 ^ 63 + 1) = Ok p.
Proof.
  intros (fuel & p & H). unfold C.SuperCeiling, SuperCeiling in H.
  pose proof (SuperCeiling_loop_too_big 63 ltac:(lia) fuel) as Hloop.
  change (2 ^ (63 - Z.of_nat 63)) with 1 in Hloop.
  rewrite Hloop in H. discriminate.
Qed.

(** ** Queries that reach past the tree, and leaves outside [[0, n)] *)

(** A query that starts at or beyond the end of the block it is handed
    only ever takes the right branch, and never meets the base case. *)
Lemma f_beyond_block {T : Type} idx index_max (glue : T -> T -> T)
    (s : SegTree T) :
  (forall z, 0 <= z < index_max -> idx z = z) ->
  forall (fuel : nat) (v l r i j : Z),
    0 <= l <= i -> 0 <= r < i -> i <= j -> 2 * i <= index_max ->
    f idx glue fuel s v l r i j = Timeout.
Proof.
  intros Hsmall. induction fuel as [|fuel IH]; intros v l r i j Hl Hr Hij Hi.
  - reflexivity.
  - simpl. destruct (Z.eqb_spec r j) as [Hrj|_]; [lia|].
    rewrite andb_false_r.
    rewrite (Hsmall (l + r)) by lia.
    assert (0 <= Z.quot (l + r) 2 < i) as Hm.
    { rewrite Z.quot_div_nonneg by lia. split.
      - apply Z.div_pos; lia.
      - apply Z.div_lt_upper_bound; lia. }
    destruct (Z.leb_spec i (Z.quot (l + r) 2)); [lia|].
    destruct (Z.gtb_spec j (Z.quot (l + r) 2)); [|lia].
    rewrite (Hsmall (Z.quot (l + r) 2 + 1)) by lia.
    rewrite max_Zmax.
    replace (Z.max i (Z.quot (l + r) 2 + 1)) with i by lia.
    simpl. rewrite IH by lia. reflexivity.
Qed.

Lemma rd_returns {T : Type} (A : list T) (i : Z) : rd A i <> Timeout.
Proof.
  unfold rd. destruct (i <? 0); [discriminate|].
  destruct (A !! Z.to_nat i); discriminate.
Qed.

Lemma wr_returns {T : Type} (A : list T) (i : Z) (x : T) :
  wr A i x <> Timeout.
Proof.
  unfold wr. destruct ((0 <=? i) && (i <? Z.of_nat (length A)));
    discriminate.
Qed.

Lemma Assign_loop_returns {T : Type} idx (glue : T -> T -> T) :
  forall (fuel : nat) (A : list T) (i : Z),
    i < pow2 fuel -> Assign_loop idx glue fuel A i <> Timeout.
Proof.
  induction fuel as [|fuel IH]; intros A i Hi; cbn [Assign_loop].
  - rewrite pow2_0 in Hi. destruct (Z.gtb_spec i 0); [lia|discriminate].
  - destruct (Z.gtb_spec i 0) as [Hpos|_]; [|discriminate].
    pose proof (rd_returns A (LeftChild idx i)) as Ha.
    destruct (rd A (LeftChild idx i)) as [a| |];
      [|simpl; discriminate|contradiction].
    cbn [mbind result_bind].
    pose proof (rd_returns A (RightChild idx i)) as Hb.
    destruct (rd A (RightChild idx i)) as [b| |];
      [|simpl; discriminate|contradiction].
    cbn [mbind result_bind].
    pose proof (wr_returns A i (glue a b)) as Hw.
    destruct (wr A i (glue a b)) as [A'| |];
      [|simpl; discriminate|contradiction].
    cbn [mbind result_bind]. apply IH. unfold Parent. rewrite pow2_S in Hi.
    rewrite Z.quot_div_nonneg by lia.
    apply Z.div_lt_upper_bound; lia.
Qed.

Lemma demo_tree_built :
  build size_t glue_int 0 (SIZE_MAX / sizeof_int) 64 7 [(3, 7); (4, 1)]
  = Ok C.demo_tree.
Proof. vm_compute. reflexivity. Qed.

Lemma demo_ops_valid (bound : Z) : 7 <= bound ->
  Forall (valid_op int_range bound) [(3, 7); (4, 1)].
Proof.
  intros H. repeat constructor; simpl; unfold int_range; lia.
Qed.

Lemma demo_tree_consistent :
  shape 0 (SIZE_MAX / sizeof_int) int_range C.demo_tree /\
  nodes_ok glue_int C.demo_tree.
Proof.
  pose proof C_index_type as [Hsmall Hcount].
  pose proof glue_int_operator as [Hv Hzv _ Hzl _].
  destruct (build_reaches size_t (2 ^ 64) Hsmall glue_int 0
              (SIZE_MAX / sizeof_int) Hcount int_range Hv Hzv Hzl
              64%nat 7 [(3, 7); (4, 1)])
    as (s & Hrun & Hsh & Hnodes & _).
  - apply C_fits. lia.
  - vm_compute. reflexivity.
  - apply demo_ops_valid. vm_compute. discriminate.
  - rewrite demo_tree_built in Hrun. injection Hrun as <-.
    split; assumption.
Qed.

Lemma demo_tree_padding : padding_ok C.demo_tree.
Proof.
  intros i Hi. simpl in Hi. assert (i = 15) as -> by lia. reflexivity.
Qed.

(** C9.  The public query accepts ranges that extend into the padding: on
    a tree built with logical size [size] and assignments to any leaves,
    [RangeSum(i, j)] with [0 <= i <= j <= N-1] completes and returns the
    fold over the leaves [i..j], also when [j >= size]; a padding leaf
    that was never assigned holds, and so contributes, the identity. *)
Theorem RangeSum_reaches_padding {T : Type} idx index_max max_count
    (glue : T -> T -> T) zero valid :
  index_type idx index_max max_count -> operator glue zero valid ->
  forall (fuel : nat) (size : Z) (ops : list (Z * T)),
    fits max_count size -> Z.log2_up size < Z.of_nat fuel ->
    Forall (valid_op valid (2 ^ Z.log2_up size)) ops ->
    exists s,
      build idx glue zero max_count fuel size ops = Ok s /\
      n s = size /\
      (forall i j, 0 <= i <= j /\ j <= N s - 1 ->
         RangeSum idx glue fuel s i j =
         Ok (fold_glue glue zero (leaves s i j))) /\
      (forall k, size <= k <= N s - 1 -> last_assigned ops k = None ->
         storage s (N s + k) = identity s).
Proof.
  intros Hidx Hop fuel size ops Hfits Hfuel Hops.
  pose proof Hidx as [Hsmall Hcount]. pose proof Hop as [Hv Hzv _ Hzl _].
  destruct (build_reaches idx index_max Hsmall glue zero max_count Hcount
              valid Hv Hzv Hzl fuel size ops Hfits Hfuel Hops)
    as (s & Hrun & Hsh & Hnodes & Hn & HN & Hleaves).
  exists s. split; [exact Hrun|]. split; [exact Hn|]. split.
  - intros i j Hij.
    destruct (RangeSum_inside idx index_max max_count glue zero valid
                Hidx Hop fuel s i j Hsh Hnodes) as (x & -> & _ & Hx).
    + lia.
    + lia.
    + rewrite HN, Z.log2_pow2 by apply Z.log2_up_nonneg. assumption.
    + rewrite Hx by lia. reflexivity.
  - intros k Hk Hnone. destruct Hfits as [Hsize _].
    rewrite Hleaves by lia. unfold current. rewrite Hnone.
    destruct Hsh as [_ _ _ _ _ Hid]. rewrite Hid. reflexivity.
Qed.

Lemma RangeSum_reaches_padding_witness :
  RangeSum size_t glue_int 64 C.demo_tree 2 7 =
    Ok (fold_glue glue_int 0 (leaves C.demo_tree 2 7)) /\
  storage C.demo_tree (N C.demo_tree + 7) = identity C.demo_tree.
Proof.
  destruct (RangeSum_reaches_padding size_t (2 ^ 64)
              (SIZE_MAX / sizeof_int) glue_int 0 int_range
              C_index_type glue_int_operator 64%nat 7 [(3, 7); (4, 1)])
    as (s & Hrun & _ & Hquery & Hpad).
  - apply C_fits. lia.
  - vm_compute. reflexivity.
  - apply demo_ops_valid. vm_compute. discriminate.
  - rewrite demo_tree_built in Hrun. injection Hrun as <-. split.
    + apply Hquery. simpl. lia.
    + apply Hpad; [simpl; lia|reflexivity].
Defined.

(** C3, as amended.  Neither operation compares its arguments with [n]
    and neither signals an error: on a built tree, [Assign] with an index
    in [[n, N)] completes and stores the value in the padding leaf, and
    [RangeSum(i, j)] with [0 <= i <= j] and [n <= j <= N-1] completes and
    returns a value. *)
Theorem no_range_check {T : Type} idx index_max max_count
    (glue : T -> T -> T) zero valid :
  index_type idx index_max max_count -> operator glue zero valid ->
  forall (fuel : nat) (size : Z) (ops : list (Z * T)),
    fits max_count size -> Z.log2_up size < Z.of_nat fuel ->
    Forall (valid_op valid size) ops ->
    exists s,
      build idx glue zero max_count fuel size ops = Ok s /\
      n s = size /\
      (forall index x, n s <= index < N s -> valid x ->
         exists s', Assign idx glue fuel s index x = Ok s' /\
                    storage s' (N s + index) = x) /\
      (forall i j, 0 <= i <= j -> n s <= j <= N s - 1 ->
         exists y, RangeSum idx glue fuel s i j = Ok y).
Proof.
  intros Hidx Hop fuel size ops Hfits Hfuel Hops.
  pose proof Hidx as [Hsmall Hcount]. pose proof Hop as [Hv Hzv _ Hzl _].
  pose proof (log2_up_ge size) as Hge.
  destruct (build_reaches idx index_max Hsmall glue zero max_count Hcount
              valid Hv Hzv Hzl fuel size ops Hfits Hfuel)
    as (s & Hrun & Hsh & Hnodes & Hn & HN & Hleaves).
  { apply (valid_op_mono valid size); assumption. }
  assert (Z.log2 (N s) < Z.of_nat fuel) as Hfuel'
    by (rewrite HN, Z.log2_pow2 by apply Z.log2_up_nonneg; assumption).
  destruct Hfits as [Hsize _].
  exists s. split; [exact Hrun|]. split; [exact Hn|]. split.
  - intros index x Hindex Hx.
    destruct (Assign_leaf idx index_max Hsmall glue zero max_count Hcount
                valid Hv fuel s index x Hsh Hnodes)
      as (s' & Hrun' & _ & _ & _ & _ & _ & Hleaf & _);
      [lia|assumption|assumption|].
    exists s'. split; assumption.
  - intros i j Hij Hj.
    destruct (RangeSum_inside idx index_max max_count glue zero valid
                Hidx Hop fuel s i j Hsh Hnodes) as (y & Hy & _);
      [lia|lia|assumption|].
    exists y. exact Hy.
Qed.

Lemma no_range_check_witness :
  (exists s', Assign size_t glue_int 64 C.demo_tree 7 5 = Ok s' /\
              storage s' (N C.demo_tree + 7) = 5) /\
  (exists y, RangeSum size_t glue_int 64 C.demo_tree 2 7 = Ok y).
Proof.
  destruct (no_range_check size_t (2 ^ 64) (SIZE_MAX / sizeof_int)
              glue_int 0 int_range C_index_type glue_int_operator
              64%nat 7 [(3, 7); (4, 1)])
    as (s & Hrun & _ & Hassign & Hquery).
  - apply C_fits. lia.
  - vm_compute. reflexivity.
  - apply demo_ops_valid. lia.
  - rewrite demo_tree_built in Hrun. injection Hrun as <-. split.
    + apply Hassign; [simpl; lia|unfold int_range; lia].
    + apply Hquery; simpl; lia.
Defined.

(** C3, as stated, fails: on the tree of the demonstration ([n = 7],
    [N = 8]) [Assign] with index 7 returns normally with the value stored
    in leaf 15, and [RangeSum(2, 7)], whose upper bound is outside
    [[0, n-1]], returns 8. *)
Lemma out_of_range_is_not_signalled :
  n C.demo_tree = 7 /\
  (exists s', C.Assign 64 C.demo_tree 7 5 = Ok s' /\ storage s' 15 = 5) /\
  C.RangeSum 64 C.demo_tree 2 7 = Ok 8.
Proof.
  split; [reflexivity|]. split.
  - eexists. split; [vm_compute; reflexivity|reflexivity].
  - vm_compute. reflexivity.
Qed.

(** C4, as amended.  On a consistent tree [Assign] with an index in
    [[0, N)] always completes; it leaves [n], [N] and [identity] as they
    were, changes no leaf but the addressed one, and keeps the layout and
    the internal-node invariant; with an index in [[0, n)] it keeps the
    padding invariant as well.  [RangeSum(i, j)] with
    [0 <= i <= j <= N-1] completes; it only reads the tree. *)
Theorem Assign_completes {T : Type} idx index_max max_count
    (glue : T -> T -> T) zero valid :
  index_type idx index_max max_count -> operator glue zero valid ->
  forall (fuel : nat) (s : SegTree T),
    shape zero max_count valid s -> nodes_ok glue s ->
    Z.log2 (N s) < Z.of_nat fuel ->
    (forall index x, 0 <= index < N s -> valid x ->
       exists s',
         Assign idx glue fuel s index x = Ok s' /\
         n s' = n s /\ N s' = N s /\ identity s' = identity s /\
         shape zero max_count valid s' /\ nodes_ok glue s' /\
         storage s' (N s + index) = x /\
         (forall k, 0 <= k -> k <> index ->
            storage s' (N s + k) = storage s (N s + k)) /\
         (index < n s -> padding_ok s -> padding_ok s')) /\
    (forall i j, 0 <= i <= j -> j <= N s - 1 ->
       exists y, RangeSum idx glue fuel s i j = Ok y).
Proof.
  intros Hidx Hop fuel s Hsh Hnodes Hfuel.
  pose proof Hidx as [Hsmall Hcount]. pose proof Hop as [Hv _ _ _ _].
  split.
  - intros index x Hindex Hx.
    destruct (Assign_leaf idx index_max Hsmall glue zero max_count Hcount
                valid Hv fuel s index x Hsh Hnodes Hindex Hx Hfuel)
      as (s' & Hrun & Hsh' & Hnodes' & Hn & HN & Hid & Hleaf & Hothers).
    exists s'. repeat (split; [assumption|]). split.
    + intros k Hk Hne. apply Hothers; assumption.
    + intros Hlt Hpad i Hi. rewrite HN, Hn in Hi. rewrite Hid.
      replace i with (N s + (i - N s)) by lia.
      rewrite Hothers by lia.
      replace (N s + (i - N s)) with i by lia.
      apply Hpad. assumption.
  - intros i j Hij Hj.
    destruct (RangeSum_inside idx index_max max_count glue zero valid
                Hidx Hop fuel s i j Hsh Hnodes) as (y & Hy & _);
      [lia|lia|assumption|].
    exists y. exact Hy.
Qed.

Lemma Assign_completes_witness :
  (exists s',
     Assign size_t glue_int 64 C.demo_tree 5 9 = Ok s' /\
     n s' = n C.demo_tree /\ N s' = N C.demo_tree /\
     identity s' = identity C.demo_tree /\
     shape 0 (SIZE_MAX / sizeof_int) int_range s' /\
     nodes_ok glue_int s' /\
     storage s' (N C.demo_tree + 5) = 9 /\
     (forall k, 0 <= k -> k <> 5 ->
        storage s' (N C.demo_tree + k) =
        storage C.demo_tree (N C.demo_tree + k)) /\
     (5 < n C.demo_tree -> padding_ok C.demo_tree -> padding_ok s')) /\
  (exists y, RangeSum size_t glue_int 64 C.demo_tree 2 7 = Ok y).
Proof.
  destruct (Assign_completes size_t (2 ^ 64) (SIZE_MAX / sizeof_int)
              glue_int 0 int_range C_index_type glue_int_operator
              64%nat C.demo_tree) as [Hassign Hquery].
  - apply demo_tree_consistent.
  - apply demo_tree_consistent.
  - vm_compute. reflexivity.
  - split.
    + apply Hassign; [simpl; lia|unfold int_range; lia].
    + apply Hquery; simpl; lia.
Defined.

(** C4, as stated, fails: [Assign] has no failing path, and outside
    [[0, n)] it completes with an invariant broken.  On the tree of the
    demonstration, index 7 overwrites the padding leaf 15; index
    2^64 - 1 wraps to slot 7, an internal node, which then differs from
    the combination of its children. *)
Lemma Assign_outside_breaks_invariants :
  padding_ok C.demo_tree /\ nodes_ok glue_int C.demo_tree /\
  (exists s', C.Assign 64 C.demo_tree 7 5 = Ok s' /\ ~ padding_ok s') /\
  (exists s', C.Assign 64 C.demo_tree (2 ^ 64 - 1) 5 = Ok s' /\
              ~ nodes_ok glue_int s').
Proof.
  split; [exact demo_tree_padding|].
  split; [apply demo_tree_consistent|]. split.
  - eexists. split; [vm_compute; reflexivity|].
    intros Hpad. specialize (Hpad 15 ltac:(simpl; lia)). discriminate.
  - eexists. split; [vm_compute; reflexivity|].
    intros Hnodes. specialize (Hnodes 7 ltac:(simpl; lia)). discriminate.
Qed.

(** On a block of a tree of the right layout [f] returns, whatever the
    operator and whatever the nodes hold. *)
Lemma f_returns {T : Type} idx index_max max_count (glue : T -> T -> T)
    zero (s : SegTree T) :
  index_type idx index_max max_count ->
  shape zero max_count (fun _ => True) s ->
  forall (h fuel : nat) (v l r i j : Z),
    block s h v l r -> l <= i <= r -> l <= j <= r -> (h < fuel)%nat ->
    exists x, f idx glue fuel s v l r i j = Ok x.
Proof.
  intros [Hsmall Hcount] Hsh.
  pose proof Hsh as [_ _ Hcap Hlen _ Hid].
  induction h as [|h IH]; intros fuel v l r i j Hb Hi Hj Hfuel;
    (destruct fuel as [|fuel]; [lia|]); simpl f.
  - destruct (block_leaf _ _ _ _ Hb) as (Hlr & Hv & HvN).
    assert (i = l) as -> by lia. assert (j = l) as -> by lia. subst r.
    rewrite !Z.eqb_refl. cbn [andb].
    rewrite (rd_sel (identity s)) by lia. eexists. reflexivity.
  - pose proof (pow2_pos h) as Hp.
    pose proof (block_slot _ _ _ _ _ Hb) as HvN.
    destruct (block_inner _ _ _ _ _ Hb) as (Hv & Hleft & Hright).
    assert (r = l + pow2 (S h) - 1) as Hr by (destruct Hb; tauto).
    assert (r < N s) as HrN by (destruct Hb; tauto).
    assert (0 <= l) as Hl by (destruct Hb; tauto).
    rewrite pow2_S in Hr.
    destruct ((l =? i) && (r =? j)).
    + rewrite (rd_sel (identity s)) by lia. eexists. reflexivity.
    + rewrite (block_mid idx index_max Hsmall zero max_count Hcount
                 (fun _ => True) s Hsh _ _ _ _ Hb).
      set (m := l + pow2 h - 1) in *.
      unfold LeftChild, RightChild. rewrite !max_Zmax, !min_Zmin.
      rewrite !(Hsmall (2 * v)) by lia.
      rewrite !(Hsmall (2 * v + 1)) by lia.
      rewrite !(Hsmall (m + 1)) by lia.
      replace (m + 1) with (l + pow2 h) by lia.
      assert (exists a, (if i <=? m
                         then f idx glue fuel s (2 * v) l m i (Z.min m j)
                         else Ok (identity s)) = Ok a) as [a ->].
      { destruct (Z.leb_spec i m); [|eexists; reflexivity].
        apply (IH fuel (2 * v) l m i (Z.min m j)); (assumption || lia). }
      assert (exists b, (if j >? m
                         then f idx glue fuel s (2 * v + 1) (l + pow2 h) r
                                (Z.max i (l + pow2 h)) j
                         else Ok (identity s)) = Ok b) as [b ->].
      { destruct (Z.gtb_spec j m); [|eexists; reflexivity].
        apply (IH fuel (2 * v + 1) (l + pow2 h) r (Z.max i (l + pow2 h)) j);
          (assumption || lia). }
      eexists. reflexivity.
Qed.

(** [f] reads the array and the [identity] field of the tree, nothing
    else. *)
Lemma f_reads_array_and_identity {T : Type} idx (glue : T -> T -> T)
    (s1 s2 : SegTree T) :
  identity s1 = identity s2 -> A s1 = A s2 ->
  forall (fuel : nat) (v l r i j : Z),
    f idx glue fuel s1 v l r i j = f idx glue fuel s2 v l r i j.
Proof.
  intros Hid HA. induction fuel as [|fuel IH]; intros v l r i j.
  - reflexivity.
  - cbn [f]. rewrite Hid, HA, !IH. reflexivity.
Qed.

(** C8, as amended.  On every tree with the layout that construction
    gives ([N] a power of two, an array of [2*N] slots), whatever the
    slots hold and whatever the operator, the recursion of [RangeSum]
    returns for every pair of bounds in [[0, N-1]], within [log2 N + 1]
    levels; the ancestor walk of [Assign] ends for every index and every
    state, since its counter halves at each step. *)
Theorem operations_terminate {T : Type} idx index_max
    (glue : T -> T -> T) :
  (forall z, 0 <= z < index_max -> idx z = z) ->
  forall (s : SegTree T),
    ((exists h : nat, N s = pow2 h) ->
     Z.of_nat (length (A s)) = 2 * N s -> 2 * N s < index_max ->
     forall (fuel : nat) i j,
       Z.log2 (N s) < Z.of_nat fuel ->
       0 <= i <= N s - 1 -> 0 <= j <= N s - 1 ->
       exists y, RangeSum idx glue fuel s i j = Ok y) /\
    (forall (fuel : nat) index x,
       Z.log2 (idx (index + N s)) < Z.of_nat fuel ->
       Assign idx glue fuel s index x <> Timeout).
Proof.
  intros Hsmall s. split.
  - intros [h Hpow] Hlen Hmax fuel i j Hfuel Hi Hj.
    pose proof (pow2_pos h) as Hpos.
    set (s' := mkSegTree (identity s) 0 (N s) (A s)).
    assert (shape (identity s) (2 * N s) (fun _ => True) s') as Hsh.
    { split; unfold s'; cbn [N n A identity].
      - exists h. assumption.
      - lia.
      - lia.
      - assumption.
      - apply Forall_forall. intros; exact I.
      - reflexivity. }
    assert (index_type idx index_max (2 * N s)) as Hidx
      by (split; assumption).
    rewrite Hpow, pow2_log2 in Hfuel.
    destruct (f_returns idx index_max (2 * N s) glue (identity s) s'
                Hidx Hsh h fuel 1 0 (N s - 1) i j) as [y Hy].
    + unfold block, s'. cbn [N]. lia.
    + lia.
    + lia.
    + lia.
    + exists y. unfold RangeSum. rewrite Hsmall by lia.
      rewrite <- Hy. symmetry.
      apply f_reads_array_and_identity; reflexivity.
  - intros fuel index x Hfuel. unfold Assign.
    pose proof (wr_returns (A s) (idx (index + N s)) x) as Hw.
    destruct (wr (A s) (idx (index + N s)) x) as [A1| |];
      [|simpl; discriminate|contradiction].
    cbn [mbind result_bind].
    pose proof (Assign_loop_returns idx glue fuel A1
                  (Parent (idx (index + N s)))) as Hloop.
    destruct (Assign_loop idx glue fuel A1 (Parent (idx (index + N s))))
      as [A2| |]; [simpl; discriminate|simpl; discriminate|].
    exfalso. apply Hloop; [|reflexivity].
    pose proof (pow2_pos fuel) as Hpos. unfold Parent.
    destruct (Z.le_gt_cases (idx (index + N s)) 0) as [Hle|Hgt].
    + assert (Z.quot (idx (index + N s)) 2 <= 0); [|lia].
      apply Z.quot_le_upper_bound; lia.
    + pose proof (quot2_lt _ Hgt).
      apply Z.log2_lt_pow2 in Hfuel; [|assumption].
      unfold pow2. lia.
Qed.

(** On the tree of the demonstration, with no more fuel than the theorem
    asks for: [RangeSum(5, 5)] descends the four levels down to leaf 13,
    [RangeSum(2, 6)] splits at every level, and [Assign(5, 9)] walks the
    three ancestors 6, 3 and 1. *)
Lemma operations_terminate_witness :
  (exists y, RangeSum size_t glue_int 4 C.demo_tree 5 5 = Ok y) /\
  (exists y, RangeSum size_t glue_int 4 C.demo_tree 2 6 = Ok y) /\
  Assign size_t glue_int 4 C.demo_tree 5 9 <> Timeout.
Proof.
  destruct (operations_terminate size_t (2 ^ 64) glue_int size_t_small
              C.demo_tree) as [Hquery Hassign].
  assert (exists h : nat, N C.demo_tree = pow2 h) as Hpow
    by (exists 3%nat; reflexivity).
  split; [|split].
  - apply Hquery.
    + exact Hpow.
    + reflexivity.
    + vm_compute. reflexivity.
    + vm_compute. reflexivity.
    + simpl. lia.
    + simpl. lia.
  - apply Hquery.
    + exact Hpow.
    + reflexivity.
    + vm_compute. reflexivity.
    + vm_compute. reflexivity.
    + simpl. lia.
    + simpl. lia.
  - apply Hassign. vm_compute. reflexivity.
Defined.

(** C8, as stated, fails: on the tree of the demonstration ([N = 8]) the
    recursion of [RangeSum(8, 8)] never reaches its base case; it descends
    to the right for ever. *)
Lemma RangeSum_beyond_capacity_diverges :
  ~ exists (fuel : nat) (y : Z), C.RangeSum fuel C.demo_tree 8 8 = Ok y.
Proof.
  intros (fuel & y & H).
  unfold C.RangeSum, RangeSum in H.
  rewrite (f_beyond_block size_t (2 ^ 64) glue_int C.demo_tree size_t_small)
    in H.
  - discriminate.
  - lia.
  - vm_compute. split; [discriminate|reflexivity].
  - lia.
  - lia.
Qed.

(** ** The variant that leaves [identity] uninitialised *)

Lemma int_int (z : Z) : int (int z) = int z.
Proof. apply int_small, int_in_range. Qed.

Lemma int_add_cong (a a' b b' : Z) :
  int a = int a' -> int b = int b' -> int (a + b) = int (a' + b').
Proof.
  intros Ha Hb.
  rewrite <- (int_add_int_l a b), <- (int_add_int_r (int a) b).
  rewrite Ha, Hb, int_add_int_l, int_add_int_r. reflexivity.
Qed.

(** The result of [f] is the result it would have with [identity = 0],
    plus the content of [identity] once for every identity contribution
    of the decomposition. *)
Lemma f_identity_dependence (s : SegTree Z) (c : Z) :
  forall (fuel : nat) (v l r i j x0 : Z),
    Legacy.f fuel (Legacy.with_identity 0 s) v l r i j = Ok x0 ->
    exists x,
      Legacy.f fuel (Legacy.with_identity c s) v l r i j = Ok x /\
      int x = int (x0 + Legacy.identity_reads fuel l r i j * c).
Proof.
  unfold Legacy.f.
  induction fuel as [|fuel IH]; intros v l r i j x0 H0.
  - discriminate.
  - cbn [f Legacy.identity_reads] in *.
    destruct ((l =? i) && (r =? j)).
    + exists x0. split; [exact H0|]. f_equal. lia.
    + cbn [Legacy.with_identity identity A] in *.
      set (m := Z.quot (int (l + r)) 2) in *.
      assert (exists a0 a,
                (if i <=? m
                 then f int glue_int fuel (Legacy.with_identity 0 s)
                        (LeftChild int v) l m i (min m j)
                 else Ok 0) = Ok a0 /\
                (if i <=? m
                 then f int glue_int fuel (Legacy.with_identity c s)
                        (LeftChild int v) l m i (min m j)
                 else Ok c) = Ok a /\
                int a =
                int (a0 + (if i <=? m
                           then Legacy.identity_reads fuel l m i (min m j)
                           else 1) * c))
        as (a0 & a & Ha0 & Ha & Hac).
      { destruct (i <=? m).
        - destruct (f int glue_int fuel (Legacy.with_identity 0 s)
                      (LeftChild int v) l m i (min m j))
            as [a0| |] eqn:Ha0; try discriminate.
          destruct (IH _ _ _ _ _ _ Ha0) as (a & Ha & Hac).
          exists a0, a. auto.
        - exists 0, c. repeat split. f_equal. lia. }
      rewrite Ha0 in H0. rewrite Ha. cbn [mbind result_bind] in *.
      assert (exists b0 b,
                (if j >? m
                 then f int glue_int fuel (Legacy.with_identity 0 s)
                        (RightChild int v) (int (m + 1)) r
                        (max i (int (m + 1))) j
                 else Ok 0) = Ok b0 /\
                (if j >? m
                 then f int glue_int fuel (Legacy.with_identity c s)
                        (RightChild int v) (int (m + 1)) r
                        (max i (int (m + 1))) j
                 else Ok c) = Ok b /\
                int b =
                int (b0 + (if j >? m
                           then Legacy.identity_reads fuel (int (m + 1)) r
                                  (max i (int (m + 1))) j
                           else 1) * c))
        as (b0 & b & Hb0 & Hb & Hbc).
      { destruct (j >? m).
        - destruct (f int glue_int fuel (Legacy.with_identity 0 s)
                      (RightChild int v) (int (m + 1)) r
                      (max i (int (m + 1))) j)
            as [b0| |] eqn:Hb0; try discriminate.
          destruct (IH _ _ _ _ _ _ Hb0) as (b & Hb & Hbc).
          exists b0, b. auto.
        - exists 0, c. repeat split. f_equal. lia. }
      rewrite Hb0 in H0. rewrite Hb. cbn [mbind result_bind] in *.
      injection H0 as <-.
      eexists. split; [reflexivity|]. unfold glue_int.
      rewrite int_int, int_add_int_l.
      rewrite (int_add_cong a _ b _ Hac Hbc). f_equal. lia.
Qed.

(** With an operator and an identity content left symbolic, the queries
    of the demonstration show where [s->identity] enters. *)
Lemma demo_queries_symbolic (g : Z -> Z -> Z) (c : Z) :
  let s := mkSegTree c 7 8 [0; 8; 7; 1; 0; 7; 1; 0; 0; 0; 0; 7; 1; 0; 0; 0] in
  RangeSum int g 64 s 5 5 = Ok (g c (g (g c 0) c)) /\
  RangeSum int g 64 s 4 5 = Ok (g c (g 1 c)) /\
  RangeSum int g 64 s 0 7 = Ok 8.
Proof. vm_compute. repeat split. Qed.

Lemma Legacy_main_tree (s0 : SegTree Z) :
  Legacy.main_tree 64 s0 =
  Ok (mkSegTree (identity s0) 7 8
        [0; 8; 7; 1; 0; 7; 1; 0; 0; 0; 0; 7; 1; 0; 0; 0]).
Proof. vm_compute. reflexivity. Qed.

(** C10.  In [src/segtree.c] construction never writes the [identity]
    field: after [SegTreeInit] the field holds what the caller's struct
    held before, whatever the zero-filled array.  A query whose
    decomposition takes identity contributions adds that content once per
    contribution, so its result is fixed only once the field is: in the
    demonstration [RangeSum(5,5)] is three times the field's content and
    [RangeSum(4,5)] is 1 plus twice the content, while [RangeSum(0,7)],
    the root block, does not depend on it. *)
Theorem identity_is_left_as_found :
  (forall (fuel : nat) (s0 : SegTree Z) (size : Z) (s : SegTree Z),
     Legacy.SegTreeInit fuel s0 size = Ok s ->
     identity s = identity s0 /\ Forall (fun a => a = 0) (A s)) /\
  (forall (s : SegTree Z) (c : Z) (fuel : nat) (v l r i j x0 : Z),
     Legacy.f fuel (Legacy.with_identity 0 s) v l r i j = Ok x0 ->
     exists x,
       Legacy.f fuel (Legacy.with_identity c s) v l r i j = Ok x /\
       int x = int (x0 + Legacy.identity_reads fuel l r i j * c)) /\
  (forall s0 : SegTree Z,
     Legacy.main_query 64 s0 5 5 = Ok (int (3 * identity s0)) /\
     Legacy.main_query 64 s0 4 5 = Ok (int (1 + 2 * identity s0)) /\
     Legacy.main_query 64 s0 0 7 = Ok 8) /\
  Legacy.identity_reads 64 0 7 5 5 = 3 /\
  Legacy.main_query 64 (mkSegTree 1 0 0 []) 5 5 = Ok 3.
Proof.
  split; [|split; [|split; [|split]]].
  - intros fuel s0 size s H. unfold Legacy.SegTreeInit in H.
    destruct (Legacy.SuperCeiling fuel size) as [p| |];
      cbn [mbind result_bind] in H; try discriminate.
    injection H as <-. split; [reflexivity|].
    apply Forall_replicate. reflexivity.
  - intros s c. apply f_identity_dependence.
  - intros s0. unfold Legacy.main_query. rewrite Legacy_main_tree.
    cbn [mbind result_bind]. unfold Legacy.RangeSum.
    destruct (demo_queries_symbolic glue_int (identity s0))
      as (-> & -> & ->).
    unfold glue_int.
    rewrite !int_add_int_l, !int_add_int_r.
    repeat split; f_equal; f_equal; lia.
  - reflexivity.
  - vm_compute. reflexivity.
Qed.

(** * Further properties of the code *)

(** ** The operator and the index helpers *)

(** X1.  [glue], integer addition on [int] with wrap-around, keeps its
    result in the range of [int], is associative and commutative, has 0 as
    its identity, and is the exact sum whenever that sum is an [int]. *)
Theorem glue_int_laws (a b c : Z) :
  int_range a -> int_range b -> int_range c ->
  int_range (glue_int a b) /\
  glue_int a (glue_int b c) = glue_int (glue_int a b) c /\
  glue_int a b = glue_int b a /\
  glue_int 0 a = a /\ glue_int a 0 = a /\
  (int_range (a + b) -> glue_int a b = a + b).
Proof.
  intros Ha Hb Hc. destruct glue_int_operator as [Hv _ Hassoc Hzl Hzr].
  split; [apply Hv; assumption|].
  split; [apply Hassoc; assumption|].
  split; [unfold glue_int; f_equal; lia|].
  split; [apply Hzl; assumption|].
  split; [apply Hzr; assumption|].
  intros Hab. apply int_small. assumption.
Qed.

Lemma glue_int_laws_witness :
  int_range (glue_int (2 ^ 31 - 1) 1) /\
  glue_int (2 ^ 31 - 1) (glue_int 1 (-1)) =
    glue_int (glue_int (2 ^ 31 - 1) 1) (-1) /\
  glue_int (2 ^ 31 - 1) 1 = glue_int 1 (2 ^ 31 - 1) /\
  glue_int 0 (2 ^ 31 - 1) = 2 ^ 31 - 1 /\
  glue_int (2 ^ 31 - 1) 0 = 2 ^ 31 - 1 /\
  (int_range (2 ^ 31 - 1 + 1) -> glue_int (2 ^ 31 - 1) 1 = 2 ^ 31 - 1 + 1).
Proof.
  apply (glue_int_laws (2 ^ 31 - 1) 1 (-1)); unfold int_range; lia.
Defined.

(** X2.  As long as [2*i+1] is within the index type, the children of
    node [i] are the adjacent slots [2i] and [2i+1], [Parent] takes both
    back to [i], and [Parent] moves every node above 0 strictly towards
    the root. *)
Theorem Parent_of_children idx index_max (i : Z) :
  (forall z, 0 <= z < index_max -> idx z = z) ->
  0 <= i -> 2 * i + 1 < index_max ->
  LeftChild idx i = 2 * i /\ RightChild idx i = 2 * i + 1 /\
  Parent (LeftChild idx i) = i /\ Parent (RightChild idx i) = i /\
  (0 < i -> 0 <= Parent i < i).
Proof.
  intros Hsmall Hi Hmax. unfold LeftChild, RightChild, Parent.
  rewrite !(Hsmall (2 * i)) by lia. rewrite (Hsmall (2 * i + 1)) by lia.
  split; [reflexivity|]. split; [reflexivity|].
  split; [apply quot2_even; assumption|].
  split; [apply quot2_odd; assumption|].
  apply quot2_lt.
Qed.

Lemma Parent_of_children_witness :
  LeftChild size_t 5 = 2 * 5 /\ RightChild size_t 5 = 2 * 5 + 1 /\
  Parent (LeftChild size_t 5) = 5 /\ Parent (RightChild size_t 5) = 5 /\
  (0 < 5 -> 0 <= Parent 5 < 5).
Proof.
  apply (Parent_of_children size_t (2 ^ 64) 5 size_t_small); lia.
Defined.

(** ** A consistent tree is determined by its leaves *)

Lemma sel_lookup {T : Type} (d : T) (A : list T) (i : Z) :
  0 <= i < Z.of_nat (length A) -> A !! Z.to_nat i = Some (sel d A i).
Proof.
  intros H. unfold sel.
  destruct (lookup_lt_is_Some_2 A (Z.to_nat i)) as [x Hx]; [lia|].
  rewrite Hx. reflexivity.
Qed.

Lemma list_eq_sel {T : Type} (d : T) (A1 A2 : list T) :
  length A1 = length A2 ->
  (forall i, 0 <= i < Z.of_nat (length A1) -> sel d A1 i = sel d A2 i) ->
  A1 = A2.
Proof.
  intros Hlen Hsel. apply list_eq. intros k.
  destruct (le_lt_dec (length A1) k) as [Hge|Hlt].
  - rewrite !lookup_ge_None_2 by lia. reflexivity.
  - pose proof (Hsel (Z.of_nat k) ltac:(lia)) as Hk.
    pose proof (sel_lookup d A1 (Z.of_nat k) ltac:(lia)) as H1.
    pose proof (sel_lookup d A2 (Z.of_nat k) ltac:(lia)) as H2.
    rewrite Nat2Z.id in H1, H2. rewrite H1, H2, Hk. reflexivity.
Qed.

Lemma nodes_determined {T : Type} (glue : T -> T -> T) (s1 s2 : SegTree T) :
  nodes_ok glue s1 -> nodes_ok glue s2 ->
  N s1 = N s2 -> identity s1 = identity s2 ->
  (forall k, 0 <= k < N s1 ->
     storage s1 (N s1 + k) = storage s2 (N s1 + k)) ->
  forall v, 1 <= v < 2 * N s1 -> storage s1 v = storage s2 v.
Proof.
  intros H1 H2 HN Hid Hleaves v.
  remember (Z.to_nat (2 * N s1 - v)) as d eqn:Hd.
  revert v Hd. induction d as [d IH] using lt_wf_ind. intros v Hd Hv.
  destruct (Z.lt_ge_cases v (N s1)) as [Hin|Hleaf].
  - rewrite (H1 v) by lia. rewrite (H2 v) by lia.
    rewrite (IH (Z.to_nat (2 * N s1 - 2 * v))) with (v := 2 * v);
      [|lia|reflexivity|lia].
    rewrite (IH (Z.to_nat (2 * N s1 - (2 * v + 1)))) with (v := 2 * v + 1);
      [|lia|reflexivity|lia].
    reflexivity.
  - replace v with (N s1 + (v - N s1)) by lia. apply Hleaves. lia.
Qed.

Lemma consistent_eq {T : Type} (glue : T -> T -> T) zero max_count valid
    (s1 s2 : SegTree T) :
  shape zero max_count valid s1 -> nodes_ok glue s1 ->
  shape zero max_count valid s2 -> nodes_ok glue s2 ->
  n s1 = n s2 -> N s1 = N s2 ->
  storage s1 0 = storage s2 0 ->
  (forall k, 0 <= k < N s1 ->
     storage s1 (N s1 + k) = storage s2 (N s1 + k)) ->
  s1 = s2.
Proof.
  intros Hsh1 Hn1 Hsh2 Hn2 Hn HN H0 Hleaves.
  pose proof Hsh1 as [_ _ _ Hlen1 _ Hid1].
  pose proof Hsh2 as [_ _ _ Hlen2 _ Hid2].
  assert (identity s1 = identity s2) as Hid by congruence.
  assert (A s1 = A s2) as HA.
  { apply (list_eq_sel (identity s1)); [lia|].
    intros i Hi. destruct (Z.eq_dec i 0) as [->|Hne].
    - unfold storage in H0. rewrite H0, Hid. reflexivity.
    - pose proof (nodes_determined glue s1 s2 Hn1 Hn2 HN Hid Hleaves i
                    ltac:(lia)) as Hv.
      unfold storage in Hv. rewrite Hv, Hid. reflexivity. }
  destruct s1, s2; simpl in *; congruence.
Qed.

(** The walk writes only slots above 0. *)
Lemma Assign_loop_slot0 {T : Type} idx (glue : T -> T -> T) (d : T) :
  forall (fuel : nat) (A A' : list T) (i : Z),
    Assign_loop idx glue fuel A i = Ok A' -> sel d A' 0 = sel d A 0.
Proof.
  induction fuel as [|fuel IH]; intros A A' i; cbn [Assign_loop].
  - destruct (Z.gtb_spec i 0); [discriminate|]. intros [= <-]. reflexivity.
  - destruct (Z.gtb_spec i 0) as [Hpos|_];
      [|intros [= <-]; reflexivity].
    destruct (rd A (LeftChild idx i)) as [a| |];
      [|simpl; discriminate|simpl; discriminate].
    cbn [mbind result_bind].
    destruct (rd A (RightChild idx i)) as [b| |];
      [|simpl; discriminate|simpl; discriminate].
    cbn [mbind result_bind]. unfold wr.
    destruct ((0 <=? i) && (i <? Z.of_nat (length A)));
      [|simpl; discriminate].
    cbn [mbind result_bind]. intros H. rewrite (IH _ _ _ H).
    apply sel_insert_ne; lia.
Qed.

Lemma Assign_slot0 {T : Type} idx (glue : T -> T -> T) (fuel : nat)
    (s s' : SegTree T) (i : Z) (x : T) :
  Assign idx glue fuel s i x = Ok s' -> idx (i + N s) <> 0 ->
  storage s' 0 = storage s 0.
Proof.
  unfold Assign, wr. intros H Hne.
  destruct (Z.leb_spec 0 (idx (i + N s))) as [Hpos|]; [|discriminate].
  destruct (idx (i + N s) <? Z.of_nat (length (A s)));
    [|discriminate].
  cbn [andb mbind result_bind] in H.
  destruct (Assign_loop idx glue fuel
              (<[Z.to_nat (idx (i + N s)):=x]> (A s))
              (Parent (idx (i + N s)))) as [A2| |] eqn:Hloop;
    cbn [mbind result_bind] in H; try discriminate.
  injection H as <-. unfold storage. cbn [identity A].
  rewrite (Assign_loop_slot0 idx glue (identity s) _ _ _ _ Hloop).
  apply sel_insert_ne; lia.
Qed.

Lemma Assign_at_leaf {T : Type} idx index_max max_count
    (glue : T -> T -> T) zero valid :
  index_type idx index_max max_count -> operator glue zero valid ->
  forall (fuel : nat) (s : SegTree T) (k : Z) (x : T),
    shape zero max_count valid s -> nodes_ok glue s ->
    0 <= k < N s -> valid x -> Z.log2 (N s) < Z.of_nat fuel ->
    exists s',
      Assign idx glue fuel s k x = Ok s' /\
      shape zero max_count valid s' /\ nodes_ok glue s' /\
      n s' = n s /\ N s' = N s /\
      storage s' 0 = storage s 0 /\
      storage s' (N s + k) = x /\
      (forall k', k' <> k -> 0 <= k' ->
         storage s' (N s + k') = storage s (N s + k')).
Proof.
  intros [Hsmall Hcount] [Hv _ _ _ _] fuel s k x Hsh Hnodes Hk Hx Hfuel.
  destruct (Assign_leaf idx index_max Hsmall glue zero max_count Hcount
              valid Hv fuel s k x Hsh Hnodes Hk Hx Hfuel)
    as (s' & Hrun & Hsh' & Hnodes' & Hn & HN & _ & Hleaf & Hothers).
  exists s'. repeat (split; [assumption|]). split; [|split; assumption].
  apply (Assign_slot0 idx glue fuel s s' k x Hrun).
  destruct Hsh as [_ _ Hcap _ _ _]. rewrite Hsmall; lia.
Qed.

(** ** Assignments and point queries *)

(** X3.  Writing then reading: on a consistent tree, after [Assign(k, x)]
    with [k] in [[0, N)] the query [RangeSum(k, k)] returns [x], and the
    query of every other single position returns what it returned
    before. *)
Theorem Assign_then_point_query {T : Type} idx index_max max_count
    (glue : T -> T -> T) zero valid :
  index_type idx index_max max_count -> operator glue zero valid ->
  forall (fuel : nat) (s : SegTree T) (k : Z) (x : T),
    shape zero max_count valid s -> nodes_ok glue s ->
    0 <= k < N s -> valid x -> Z.log2 (N s) < Z.of_nat fuel ->
    exists s',
      Assign idx glue fuel s k x = Ok s' /\
      RangeSum idx glue fuel s' k k = Ok x /\
      (forall k', 0 <= k' < N s -> k' <> k ->
         RangeSum idx glue fuel s' k' k' = RangeSum idx glue fuel s k' k').
Proof.
  intros Hidx Hop fuel s k x Hsh Hnodes Hk Hx Hfuel.
  destruct (Assign_at_leaf idx index_max max_count glue zero valid Hidx Hop
              fuel s k x Hsh Hnodes Hk Hx Hfuel)
    as (s' & Hrun & Hsh' & Hnodes' & _ & HN & _ & Hleaf & Hothers).
  assert (forall (t : SegTree T) q,
            shape zero max_count valid t -> nodes_ok glue t ->
            N t = N s -> 0 <= q < N s ->
            RangeSum idx glue fuel t q q = Ok (storage t (N s + q)))
    as Hpoint.
  { intros t q Hsht Hnt HNt Hq.
    destruct (RangeSum_inside idx index_max max_count glue zero valid
                Hidx Hop fuel t q q Hsht Hnt) as (y & -> & _ & Hy);
      [lia|lia|rewrite HNt; assumption|].
    rewrite Hy by lia. rewrite leaves_single, HNt. reflexivity. }
  exists s'. split; [exact Hrun|]. split.
  - rewrite (Hpoint s' k Hsh' Hnodes' HN Hk), Hleaf. reflexivity.
  - intros k' Hk' Hne.
    rewrite (Hpoint s' k' Hsh' Hnodes' HN Hk').
    rewrite (Hpoint s k' Hsh Hnodes eq_refl Hk').
    rewrite Hothers by lia. reflexivity.
Qed.

Lemma Assign_then_point_query_witness :
  exists s',
    Assign size_t glue_int 64 C.demo_tree 5 9 = Ok s' /\
    RangeSum size_t glue_int 64 s' 5 5 = Ok 9 /\
    (forall k', 0 <= k' < N C.demo_tree -> k' <> 5 ->
       RangeSum size_t glue_int 64 s' k' k' =
       RangeSum size_t glue_int 64 C.demo_tree k' k').
Proof.
  apply (Assign_then_point_query size_t (2 ^ 64) (SIZE_MAX / sizeof_int)
           glue_int 0 int_range C_index_type glue_int_operator).
  - apply demo_tree_consistent.
  - apply demo_tree_consistent.
  - simpl. lia.
  - unfold int_range. lia.
  - vm_compute. reflexivity.
Defined.

(** X4.  The last write wins: on a consistent tree, [Assign(k, x)]
    followed by [Assign(k, y)] leaves exactly the tree that [Assign(k, y)]
    alone leaves. *)
Theorem Assign_overwrites {T : Type} idx index_max max_count
    (glue : T -> T -> T) zero valid :
  index_type idx index_max max_count -> operator glue zero valid ->
  forall (fuel : nat) (s : SegTree T) (k : Z) (x y : T),
    shape zero max_count valid s -> nodes_ok glue s ->
    0 <= k < N s -> valid x -> valid y -> Z.log2 (N s) < Z.of_nat fuel ->
    exists s1 s2,
      Assign idx glue fuel s k x = Ok s1 /\
      Assign idx glue fuel s1 k y = Ok s2 /\
      Assign idx glue fuel s k y = Ok s2.
Proof.
  intros Hidx Hop fuel s k x y Hsh Hnodes Hk Hx Hy Hfuel.
  destruct (Assign_at_leaf idx index_max max_count glue zero valid Hidx Hop
              fuel s k x Hsh Hnodes Hk Hx Hfuel)
    as (s1 & Hrun1 & Hsh1 & Hnodes1 & Hn1 & HN1 & H01 & Hleaf1 & Hoth1).
  destruct (Assign_at_leaf idx index_max max_count glue zero valid Hidx Hop
              fuel s1 k y Hsh1 Hnodes1 ltac:(lia) Hy ltac:(rewrite HN1; lia))
    as (s2 & Hrun2 & Hsh2 & Hnodes2 & Hn2 & HN2 & H02 & Hleaf2 & Hoth2).
  destruct (Assign_at_leaf idx index_max max_count glue zero valid Hidx Hop
              fuel s k y Hsh Hnodes Hk Hy Hfuel)
    as (s3 & Hrun3 & Hsh3 & Hnodes3 & Hn3 & HN3 & H03 & Hleaf3 & Hoth3).
  exists s1, s2. split; [exact Hrun1|]. split; [exact Hrun2|].
  rewrite Hrun3. f_equal. symmetry.
  apply (consistent_eq glue zero max_count valid); try assumption.
  - congruence.
  - congruence.
  - congruence.
  - intros q Hq. rewrite HN2, HN1 in *.
    destruct (Z.eq_dec q k) as [->|Hne].
    + congruence.
    + rewrite Hoth2, Hoth1, Hoth3 by lia. reflexivity.
Qed.

Lemma Assign_overwrites_witness :
  exists s1 s2,
    Assign size_t glue_int 64 C.demo_tree 5 9 = Ok s1 /\
    Assign size_t glue_int 64 s1 5 (-4) = Ok s2 /\
    Assign size_t glue_int 64 C.demo_tree 5 (-4) = Ok s2.
Proof.
  apply (Assign_overwrites size_t (2 ^ 64) (SIZE_MAX / sizeof_int)
           glue_int 0 int_range C_index_type glue_int_operator).
  - apply demo_tree_consistent.
  - apply demo_tree_consistent.
  - simpl. lia.
  - unfold int_range. lia.
  - unfold int_range. lia.
  - vm_compute. reflexivity.
Defined.

(** X5.  Assignments to different positions commute: on a consistent
    tree, [Assign(i, x)] then [Assign(j, y)] leaves the same tree as
    [Assign(j, y)] then [Assign(i, x)], for [i <> j]. *)
Theorem Assign_commutes {T : Type} idx index_max max_count
    (glue : T -> T -> T) zero valid :
  index_type idx index_max max_count -> operator glue zero valid ->
  forall (fuel : nat) (s : SegTree T) (i j : Z) (x y : T),
    shape zero max_count valid s -> nodes_ok glue s ->
    0 <= i < N s -> 0 <= j < N s -> i <> j ->
    valid x -> valid y -> Z.log2 (N s) < Z.of_nat fuel ->
    exists s1 s1' s2,
      Assign idx glue fuel s i x = Ok s1 /\
      Assign idx glue fuel s1 j y = Ok s2 /\
      Assign idx glue fuel s j y = Ok s1' /\
      Assign idx glue fuel s1' i x = Ok s2.
Proof.
  intros Hidx Hop fuel s i j x y Hsh Hnodes Hi Hj Hij Hx Hy Hfuel.
  destruct (Assign_at_leaf idx index_max max_count glue zero valid Hidx Hop
              fuel s i x Hsh Hnodes Hi Hx Hfuel)
    as (s1 & Hrun1 & Hsh1 & Hnodes1 & Hn1 & HN1 & H01 & Hleaf1 & Hoth1).
  destruct (Assign_at_leaf idx index_max max_count glue zero valid Hidx Hop
              fuel s1 j y Hsh1 Hnodes1 ltac:(lia) Hy ltac:(rewrite HN1; lia))
    as (s2 & Hrun2 & Hsh2 & Hnodes2 & Hn2 & HN2 & H02 & Hleaf2 & Hoth2).
  destruct (Assign_at_leaf idx index_max max_count glue zero valid Hidx Hop
              fuel s j y Hsh Hnodes Hj Hy Hfuel)
    as (t1 & Hrun3 & Hsh3 & Hnodes3 & Hn3 & HN3 & H03 & Hleaf3 & Hoth3).
  destruct (Assign_at_leaf idx index_max max_count glue zero valid Hidx Hop
              fuel t1 i x Hsh3 Hnodes3 ltac:(lia) Hx ltac:(rewrite HN3; lia))
    as (t2 & Hrun4 & Hsh4 & Hnodes4 & Hn4 & HN4 & H04 & Hleaf4 & Hoth4).
  exists s1, t1, s2. split; [exact Hrun1|]. split; [exact Hrun2|].
  split; [exact Hrun3|]. rewrite Hrun4. f_equal.
  apply (consistent_eq glue zero max_count valid); try assumption.
  - congruence.
  - congruence.
  - congruence.
  - intros q Hq. rewrite HN4, HN3 in *. rewrite HN1 in *.
    destruct (Z.eq_dec q i) as [->|Hqi].
    + rewrite Hleaf4, Hoth2, Hleaf1 by lia. reflexivity.
    + rewrite Hoth4 by lia.
      destruct (Z.eq_dec q j) as [->|Hqj].
      * rewrite Hleaf3, Hleaf2. reflexivity.
      * rewrite Hoth3, Hoth2, Hoth1 by lia. reflexivity.
Qed.

Lemma Assign_commutes_witness :
  exists s1 s1' s2,
    Assign size_t glue_int 64 C.demo_tree 5 9 = Ok s1 /\
    Assign size_t glue_int 64 s1 0 2 = Ok s2 /\
    Assign size_t glue_int 64 C.demo_tree 0 2 = Ok s1' /\
    Assign size_t glue_int 64 s1' 5 9 = Ok s2.
Proof.
  apply (Assign_commutes size_t (2 ^ 64) (SIZE_MAX / sizeof_int)
           glue_int 0 int_range C_index_type glue_int_operator).
  - apply demo_tree_consistent.
  - apply demo_tree_consistent.
  - simpl. lia.
  - simpl. lia.
  - lia.
  - unfold int_range. lia.
  - unfold int_range. lia.
  - vm_compute. reflexivity.
Defined.

(** X6.  Assigning to a position the value it already holds changes
    nothing: the tree after the call is the tree before it. *)
Theorem Assign_same_value {T : Type} idx index_max max_count
    (glue : T -> T -> T) zero valid :
  index_type idx index_max max_count -> operator glue zero valid ->
  forall (fuel : nat) (s : SegTree T) (k : Z),
    shape zero max_count valid s -> nodes_ok glue s ->
    0 <= k < N s -> Z.log2 (N s) < Z.of_nat fuel ->
    Assign idx glue fuel s k (storage s (N s + k)) = Ok s.
Proof.
  intros Hidx Hop fuel s k Hsh Hnodes Hk Hfuel.
  assert (valid (storage s (N s + k))) as Hx.
  { destruct Hsh as [_ _ _ Hlen Hvalid _]. unfold storage.
    apply sel_valid; [assumption|lia]. }
  destruct (Assign_at_leaf idx index_max max_count glue zero valid Hidx Hop
              fuel s k _ Hsh Hnodes Hk Hx Hfuel)
    as (s1 & Hrun1 & Hsh1 & Hnodes1 & Hn1 & HN1 & H01 & Hleaf1 & Hoth1).
  rewrite Hrun1. f_equal.
  apply (consistent_eq glue zero max_count valid); try assumption.
  intros q Hq. rewrite HN1 in *.
  destruct (Z.eq_dec q k) as [->|Hne].
  - exact Hleaf1.
  - apply Hoth1; lia.
Qed.

Lemma Assign_same_value_witness :
  Assign size_t glue_int 64 C.demo_tree 3
    (storage C.demo_tree (N C.demo_tree + 3)) = Ok C.demo_tree.
Proof.
  apply (Assign_same_value size_t (2 ^ 64) (SIZE_MAX / sizeof_int)
           glue_int 0 int_range C_index_type glue_int_operator).
  - apply demo_tree_consistent.
  - apply demo_tree_consistent.
  - simpl. lia.
  - vm_compute. reflexivity.
Defined.

(** ** Queries outside the contract of [f] *)

Lemma rd_beyond {T : Type} (A : list T) (i : Z) :
  Z.of_nat (length A) <= i -> rd A i = Undef.
Proof.
  intros H. unfold rd. destruct (Z.ltb_spec i 0); [reflexivity|].
  rewrite lookup_ge_None_2 by lia. reflexivity.
Qed.

Section QueryEdges.

Context {T : Type}.
Variable idx : Z -> Z.
Variable index_max : Z.
Hypothesis idx_small : forall z, 0 <= z < index_max -> idx z = z.
Variable glue : T -> T -> T.
Variable zero : T.
Variable max_count : Z.
Hypothesis max_count_small : max_count < index_max.
Variable valid : T -> Prop.
Hypothesis glue_valid : forall a b, valid a -> valid b -> valid (glue a b).
Hypothesis zero_valid : valid zero.
Hypothesis glue_assoc : forall a b c, valid a -> valid b -> valid c ->
  glue a (glue b c) = glue (glue a b) c.
Hypothesis glue_zero_l : forall a, valid a -> glue zero a = a.
Hypothesis glue_zero_r : forall a, valid a -> glue a zero = a.

Variable s : SegTree T.
Hypothesis Hshape : shape zero max_count valid s.
Hypothesis Hnodes : nodes_ok glue s.

(** Bounds in the wrong order, inside the block: no leaf is read. *)
Lemma f_inverted (h : nat) : forall (fuel : nat) v l r i j,
  block s h v l r -> l <= j -> j < i -> i <= r -> (h < fuel)%nat ->
  f idx glue fuel s v l r i j = Ok zero.
Proof.
  induction h as [|h IH]; intros fuel v l r i j Hb Hj Hji Hi Hfuel;
    (destruct fuel as [|fuel]; [lia|]); simpl f.
  - apply block_leaf in Hb. lia.
  - pose proof (pow2_pos h) as Hp.
    pose proof (block_slot _ _ _ _ _ Hb) as HvN.
    destruct (block_inner _ _ _ _ _ Hb) as (Hv & Hleft & Hright).
    assert (r = l + pow2 (S h) - 1) as Hr by (destruct Hb; tauto).
    assert (r < N s) as HrN by (destruct Hb; tauto).
    assert (0 <= l) as Hl by (destruct Hb; tauto).
    rewrite pow2_S in Hr.
    pose proof Hshape as [_ _ Hcap Hlen Hvalid Hid].
    destruct (Z.eqb_spec l i) as [Hli|_]; [lia|]. cbn [andb].
    rewrite (block_mid idx index_max idx_small zero max_count
               max_count_small valid s Hshape _ _ _ _ Hb).
    set (m := l + pow2 h - 1) in *.
    unfold LeftChild, RightChild. rewrite !max_Zmax, !min_Zmin.
    rewrite !(idx_small (2 * v)) by lia.
    rewrite !(idx_small (2 * v + 1)) by lia.
    rewrite !(idx_small (m + 1)) by lia.
    replace (m + 1) with (l + pow2 h) by lia.
    rewrite Hid.
    destruct (Z.leb_spec i m) as [Him|Him];
      destruct (Z.gtb_spec j m) as [Hjm|Hjm]; try lia.
    + rewrite (IH fuel (2 * v) l m i (Z.min m j)) by (assumption || lia).
      simpl. rewrite glue_zero_l by assumption. reflexivity.
    + rewrite (IH fuel (2 * v + 1) (l + pow2 h) r
                 (Z.max i (l + pow2 h)) j) by (assumption || lia).
      simpl. rewrite glue_zero_l by assumption. reflexivity.
    + simpl. rewrite glue_zero_l by assumption. reflexivity.
Qed.

(** A lower bound inside the tree and an upper bound beyond it: the
    descent along the right edge ends in a read below the last leaf. *)
Lemma f_overrun (h : nat) : forall (fuel : nat) v l r i j,
  block s h v l r -> r = N s - 1 -> l <= i <= r -> r < j ->
  4 * N s <= index_max -> (S h < fuel)%nat ->
  f idx glue fuel s v l r i j = Undef.
Proof.
  induction h as [|h IH]; intros fuel v l r i j Hb HrN Hi Hj Hmax Hfuel;
    (destruct fuel as [|fuel]; [lia|]); simpl f;
    pose proof Hshape as [_ _ Hcap Hlen Hvalid Hid];
    (destruct (Z.eqb_spec r j) as [Hrj|_]; [lia|]);
    rewrite andb_false_r.
  - destruct (block_leaf _ _ _ _ Hb) as (Hlr & Hv & HvN).
    assert (0 <= l) as Hl by (destruct Hb; tauto).
    assert (i = l) as -> by lia. rewrite <- Hlr in *. clear Hlr.
    rewrite (idx_small (l + l)) by lia.
    replace (l + l) with (2 * l) by lia. rewrite quot2_even by lia.
    destruct (Z.leb_spec l l); [|lia].
    unfold LeftChild. rewrite (idx_small (2 * v)) by lia.
    rewrite min_Zmin. replace (Z.min l j) with l by lia.
    destruct fuel as [|fuel]; [lia|]. simpl f.
    rewrite !Z.eqb_refl. cbn [andb].
    rewrite (rd_beyond (A s) (2 * v)) by lia. reflexivity.
  - pose proof (pow2_pos h) as Hp.
    pose proof (block_slot _ _ _ _ _ Hb) as HvN.
    destruct (block_inner _ _ _ _ _ Hb) as (Hv & Hleft & Hright).
    assert (r = l + pow2 (S h) - 1) as Hr by (destruct Hb; tauto).
    assert (0 <= l) as Hl by (destruct Hb; tauto).
    rewrite pow2_S in Hr.
    rewrite (block_mid idx index_max idx_small zero max_count
               max_count_small valid s Hshape _ _ _ _ Hb).
    set (m := l + pow2 h - 1) in *.
    unfold LeftChild, RightChild. rewrite !max_Zmax, !min_Zmin.
    rewrite !(idx_small (2 * v)) by lia.
    rewrite !(idx_small (2 * v + 1)) by lia.
    rewrite !(idx_small (m + 1)) by lia.
    replace (m + 1) with (l + pow2 h) by lia.
    destruct (Z.gtb_spec j m) as [_|Hjm]; [|lia].
    rewrite (IH fuel (2 * v + 1) (l + pow2 h) r (Z.max i (l + pow2 h)) j)
      by (assumption || lia).
    destruct (Z.leb_spec i m) as [Him|Him].
    + destruct (f_block idx index_max idx_small glue zero max_count
                  max_count_small valid glue_valid zero_valid glue_assoc
                  glue_zero_l glue_zero_r s Hshape Hnodes h fuel
                  (2 * v) l m i (Z.min m j))
        as (x1 & -> & _); [assumption|lia|lia|lia|].
      reflexivity.
    + reflexivity.
Qed.

End QueryEdges.

Lemma root_block {T : Type} (s : SegTree T) (h : nat) :
  N s = pow2 h -> block s h 1 0 (N s - 1).
Proof. intros H. unfold block. pose proof (pow2_pos h). lia. Qed.

(** X7.  Bounds in the wrong order: on a consistent tree [RangeSum(i, j)]
    with [0 <= j < i <= N-1] reads no leaf and returns the identity. *)
Theorem RangeSum_inverted {T : Type} idx index_max max_count
    (glue : T -> T -> T) zero valid :
  index_type idx index_max max_count -> operator glue zero valid ->
  forall (fuel : nat) (s : SegTree T) (i j : Z),
    shape zero max_count valid s -> nodes_ok glue s ->
    0 <= j -> j < i -> i <= N s - 1 -> Z.log2 (N s) < Z.of_nat fuel ->
    RangeSum idx glue fuel s i j = Ok (identity s).
Proof.
  intros [Hsmall Hcount] [Hv Hzv Hassoc Hzl Hzr] fuel s i j Hsh Hnodes
    Hj Hji Hi Hfuel.
  pose proof Hsh as [[h Hpow] _ Hcap _ _ Hid].
  unfold RangeSum. rewrite Hsmall by lia. rewrite Hid.
  rewrite Hpow, pow2_log2 in Hfuel.
  apply (f_inverted idx index_max Hsmall glue zero max_count Hcount valid
           Hzv Hzl s Hsh h); try lia.
  apply root_block. assumption.
Qed.

Lemma RangeSum_inverted_witness :
  RangeSum size_t glue_int 64 C.demo_tree 4 3 = Ok (identity C.demo_tree).
Proof.
  apply (RangeSum_inverted size_t (2 ^ 64) (SIZE_MAX / sizeof_int)
           glue_int 0 int_range C_index_type glue_int_operator).
  - apply demo_tree_consistent.
  - apply demo_tree_consistent.
  - lia.
  - lia.
  - simpl. lia.
  - vm_compute. reflexivity.
Defined.

(** X8.  A query that lies wholly beyond the capacity, [N <= i <= j],
    never returns, whatever the tree holds: the recursion of [f] takes the
    right branch for ever. *)
Theorem RangeSum_beyond_capacity {T : Type} idx index_max
    (glue : T -> T -> T) (s : SegTree T) (fuel : nat) (i j : Z) :
  (forall z, 0 <= z < index_max -> idx z = z) ->
  1 <= N s -> N s <= i -> i <= j -> 2 * i <= index_max ->
  RangeSum idx glue fuel s i j = Timeout.
Proof.
  intros Hsmall HN Hi Hij Hmax. unfold RangeSum.
  rewrite Hsmall by lia.
  apply (f_beyond_block idx index_max glue s Hsmall); lia.
Qed.

Lemma RangeSum_beyond_capacity_witness :
  RangeSum size_t glue_int 1000 C.demo_tree 8 11 = Timeout.
Proof.
  apply (RangeSum_beyond_capacity size_t (2 ^ 64) glue_int C.demo_tree
           1000 8 11 size_t_small); simpl; lia.
Defined.

(** X9.  A query that starts inside the tree and ends beyond the capacity,
    [0 <= i <= N-1 < j], runs off the array: after the descent along the
    right edge, [f] reads the slot twice the index of the last leaf. *)
Theorem RangeSum_overrun {T : Type} idx index_max max_count
    (glue : T -> T -> T) zero valid :
  index_type idx index_max max_count -> operator glue zero valid ->
  forall (fuel : nat) (s : SegTree T) (i j : Z),
    shape zero max_count valid s -> nodes_ok glue s ->
    0 <= i <= N s - 1 -> N s - 1 < j -> 4 * N s <= index_max ->
    Z.log2 (N s) + 1 < Z.of_nat fuel ->
    RangeSum idx glue fuel s i j = Undef.
Proof.
  intros [Hsmall Hcount] [Hv Hzv Hassoc Hzl Hzr] fuel s i j Hsh Hnodes
    Hi Hj Hmax Hfuel.
  pose proof Hsh as [[h Hpow] _ Hcap _ _ _].
  unfold RangeSum. rewrite Hsmall by lia.
  rewrite Hpow, pow2_log2 in Hfuel.
  apply (f_overrun idx index_max Hsmall glue zero max_count Hcount valid
           Hv Hzv Hassoc Hzl Hzr s Hsh Hnodes h); try lia.
  apply root_block. assumption.
Qed.

Lemma RangeSum_overrun_witness :
  RangeSum size_t glue_int 64 C.demo_tree 0 8 = Undef.
Proof.
  apply (RangeSum_overrun size_t (2 ^ 64) (SIZE_MAX / sizeof_int)
           glue_int 0 int_range C_index_type glue_int_operator).
  - apply demo_tree_consistent.
  - apply demo_tree_consistent.
  - simpl. lia.
  - simpl. lia.
  - simpl. lia.
  - vm_compute. reflexivity.
Defined.

(** X10.  [Assign] with an index at or beyond the capacity, and small
    enough for [index + N] not to wrap, stores outside the array. *)
Theorem Assign_beyond_capacity {T : Type} idx index_max max_count
    (glue : T -> T -> T) zero valid :
  index_type idx index_max max_count ->
  forall (fuel : nat) (s : SegTree T) (k : Z) (x : T),
    shape zero max_count valid s ->
    N s <= k -> k + N s < index_max ->
    Assign idx glue fuel s k x = Undef.
Proof.
  intros [Hsmall Hcount] fuel s k x Hsh Hk Hmax.
  pose proof Hsh as [_ Hn _ Hlen _ _].
  unfold Assign, wr. rewrite Hsmall by lia.
  destruct (Z.ltb_spec (k + N s) (Z.of_nat (length (A s)))); [lia|].
  rewrite andb_false_r. reflexivity.
Qed.

Lemma Assign_beyond_capacity_witness :
  Assign size_t glue_int 64 C.demo_tree 8 5 = Undef.
Proof.
  apply (Assign_beyond_capacity size_t (2 ^ 64) (SIZE_MAX / sizeof_int)
           glue_int 0 int_range C_index_type).
  - apply demo_tree_consistent.
  - simpl. lia.
  - simpl. lia.
Defined.

(** X11.  Queries compose: on a consistent tree, for [0 <= i <= m < j <=
    N-1], [RangeSum(i, j)] is [glue] of [RangeSum(i, m)] and
    [RangeSum(m+1, j)]. *)
Theorem RangeSum_splits {T : Type} idx index_max max_count
    (glue : T -> T -> T) zero valid :
  index_type idx index_max max_count -> operator glue zero valid ->
  forall (fuel : nat) (s : SegTree T) (i m j : Z),
    shape zero max_count valid s -> nodes_ok glue s ->
    0 <= i <= m -> m < j -> j <= N s - 1 ->
    Z.log2 (N s) < Z.of_nat fuel ->
    exists a b,
      RangeSum idx glue fuel s i m = Ok a /\
      RangeSum idx glue fuel s (m + 1) j = Ok b /\
      RangeSum idx glue fuel s i j = Ok (glue a b).
Proof.
  intros Hidx Hop fuel s i m j Hsh Hnodes Hi Hm Hj Hfuel.
  destruct (RangeSum_inside idx index_max max_count glue zero valid Hidx Hop
              fuel s i m Hsh Hnodes) as (a & Ha & _ & Hfa);
    [lia|lia|assumption|].
  destruct (RangeSum_inside idx index_max max_count glue zero valid Hidx Hop
              fuel s (m + 1) j Hsh Hnodes) as (b & Hb & _ & Hfb);
    [lia|lia|assumption|].
  destruct (RangeSum_inside idx index_max max_count glue zero valid Hidx Hop
              fuel s i j Hsh Hnodes) as (c & Hc & _ & Hfc);
    [lia|lia|assumption|].
  exists a, b. split; [exact Ha|]. split; [exact Hb|].
  rewrite Hc. f_equal.
  rewrite Hfa, Hfb, Hfc by lia.
  rewrite (leaves_split s i m j) by lia.
  destruct Hop as [Hv Hzv Hassoc Hzl Hzr].
  pose proof Hsh as [_ _ _ Hlen Hvalid _].
  apply (fold_glue_app glue zero valid); try assumption.
  - apply leaves_valid; [assumption|lia|lia].
  - apply leaves_valid; [assumption|lia|lia].
Qed.

Lemma RangeSum_splits_witness :
  exists a b,
    RangeSum size_t glue_int 64 C.demo_tree 1 3 = Ok a /\
    RangeSum size_t glue_int 64 C.demo_tree (3 + 1) 6 = Ok b /\
    RangeSum size_t glue_int 64 C.demo_tree 1 6 = Ok (glue_int a b).
Proof.
  apply (RangeSum_splits size_t (2 ^ 64) (SIZE_MAX / sizeof_int)
           glue_int 0 int_range C_index_type glue_int_operator).
  - apply demo_tree_consistent.
  - apply demo_tree_consistent.
  - lia.
  - lia.
  - simpl. lia.
  - vm_compute. reflexivity.
Defined.

(** ** What the nodes hold *)

(** X12.  In a consistent tree every node holds the fold of the leaves of
    the block it spans; the root, node 1, holds the fold of all [N]
    leaves. *)
Theorem node_holds_fold_of_block {T : Type} max_count
    (glue : T -> T -> T) zero valid :
  operator glue zero valid ->
  forall (s : SegTree T),
    shape zero max_count valid s -> nodes_ok glue s ->
    (forall h v l r, block s h v l r ->
       storage s v = fold_glue glue zero (leaves s l r)) /\
    storage s 1 = fold_glue glue zero (leaves s 0 (N s - 1)).
Proof.
  intros [Hv Hzv Hassoc Hzl Hzr] s Hsh Hnodes.
  assert (forall h v l r, block s h v l r ->
            storage s v = fold_glue glue zero (leaves s l r)) as Hall.
  { intros h. apply (node_fold glue zero max_count valid Hv Hzv Hassoc Hzl
                       Hzr s Hsh Hnodes h). }
  split; [exact Hall|].
  pose proof Hsh as [[h Hpow] _ _ _ _ _].
  apply (Hall h). apply root_block. assumption.
Qed.

Lemma node_holds_fold_of_block_witness :
  (forall h v l r, block C.demo_tree h v l r ->
     storage C.demo_tree v = fold_glue glue_int 0 (leaves C.demo_tree l r)) /\
  storage C.demo_tree 1 =
    fold_glue glue_int 0 (leaves C.demo_tree 0 (N C.demo_tree - 1)).
Proof.
  apply (node_holds_fold_of_block (SIZE_MAX / sizeof_int) glue_int 0
           int_range glue_int_operator).
  - apply demo_tree_consistent.
  - apply demo_tree_consistent.
Defined.

Lemma fold_glue_zeros {T : Type} (glue : T -> T -> T) zero valid
    (xs : list T) :
  operator glue zero valid ->
  Forall (fun x => x = zero) xs -> fold_glue glue zero xs = zero.
Proof.
  intros [Hv Hzv Hassoc Hzl Hzr] Hxs. induction Hxs as [|x xs -> _ IH].
  - reflexivity.
  - rewrite (fold_glue_cons glue zero valid Hzr) by assumption.
    rewrite IH. apply Hzl. assumption.
Qed.

(** X13.  A query over positions that were never assigned returns the
    identity: on a tree built with any assignments to leaves,
    [RangeSum(i, j)] with [0 <= i <= j <= N-1] returns the identity when
    no assignment addressed a position of [[i, j]].  This covers a fresh
    tree and a range of padding. *)
Theorem RangeSum_of_unassigned {T : Type} idx index_max max_count
    (glue : T -> T -> T) zero valid :
  index_type idx index_max max_count -> operator glue zero valid ->
  forall (fuel : nat) (size : Z) (ops : list (Z * T)) (i j : Z),
    fits max_count size -> Z.log2_up size < Z.of_nat fuel ->
    Forall (valid_op valid (2 ^ Z.log2_up size)) ops ->
    0 <= i <= j -> j <= 2 ^ Z.log2_up size - 1 ->
    (forall k, i <= k <= j -> last_assigned ops k = None) ->
    exists s,
      build idx glue zero max_count fuel size ops = Ok s /\
      RangeSum idx glue fuel s i j = Ok (identity s).
Proof.
  intros Hidx Hop fuel size ops i j Hfits Hfuel Hops Hij Hj Hnone.
  pose proof Hidx as [Hsmall Hcount]. pose proof Hop as [Hv Hzv _ Hzl _].
  destruct (build_reaches idx index_max Hsmall glue zero max_count Hcount
              valid Hv Hzv Hzl fuel size ops Hfits Hfuel Hops)
    as (s & Hrun & Hsh & Hnodes & Hn & HN & Hleaves).
  exists s. split; [exact Hrun|].
  destruct (RangeSum_inside idx index_max max_count glue zero valid
              Hidx Hop fuel s i j Hsh Hnodes) as (x & -> & _ & Hx).
  - lia.
  - lia.
  - rewrite HN, Z.log2_pow2 by apply Z.log2_up_nonneg. assumption.
  - rewrite Hx by lia. f_equal.
    destruct Hsh as [_ _ _ _ _ ->].
    apply (fold_glue_zeros glue zero valid); [assumption|].
    unfold leaves. apply Forall_fmap, Forall_forall.
    intros k Hk. apply elem_of_seqZ in Hk. unfold compose.
    rewrite Hleaves by lia. unfold current.
    rewrite Hnone by lia. reflexivity.
Qed.

Lemma RangeSum_of_unassigned_witness :
  exists s,
    build size_t glue_int 0 (SIZE_MAX / sizeof_int) 64 7 [(3, 7); (4, 1)]
      = Ok s /\
    RangeSum size_t glue_int 64 s 5 7 = Ok (identity s).
Proof.
  apply (RangeSum_of_unassigned size_t (2 ^ 64) (SIZE_MAX / sizeof_int)
           glue_int 0 int_range C_index_type glue_int_operator).
  - apply C_fits. lia.
  - vm_compute. reflexivity.
  - apply demo_ops_valid. vm_compute. discriminate.
  - lia.
  - vm_compute. discriminate.
  - intros k Hk. cbn [last_assigned].
    destruct (Z.eqb_spec 4 k); [lia|]. destruct (Z.eqb_spec 3 k); [lia|].
    reflexivity.
Defined.

(** X14.  Slot 0 of the array is unused: [Assign] to a leaf leaves it as
    it is, and no query with bounds in [[0, N-1]] depends on what it
    holds. *)
Theorem slot_zero_unused {T : Type} idx index_max max_count
    (glue : T -> T -> T) zero valid :
  index_type idx index_max max_count -> operator glue zero valid ->
  forall (fuel : nat) (s : SegTree T),
    shape zero max_count valid s -> nodes_ok glue s ->
    Z.log2 (N s) < Z.of_nat fuel ->
    (forall k x, 0 <= k < N s -> valid x ->
       exists s', Assign idx glue fuel s k x = Ok s' /\
                  storage s' 0 = storage s 0) /\
    (forall y i j, valid y -> 0 <= i <= j -> j <= N s - 1 ->
       RangeSum idx glue fuel
         (mkSegTree (identity s) (n s) (N s) (<[0%nat := y]> (A s))) i j =
       RangeSum idx glue fuel s i j).
Proof.
  intros Hidx Hop fuel s Hsh Hnodes Hfuel. split.
  - intros k x Hk Hx.
    destruct (Assign_at_leaf idx index_max max_count glue zero valid Hidx Hop
                fuel s k x Hsh Hnodes Hk Hx Hfuel)
      as (s' & Hrun & _ & _ & _ & _ & H0 & _).
    exists s'. split; assumption.
  - intros y i j Hy Hij Hj.
    set (s' := mkSegTree (identity s) (n s) (N s) (<[0%nat := y]> (A s))).
    pose proof Hsh as [Hpow Hn Hcap Hlen Hvalid Hid].
    assert (forall v, 1 <= v -> storage s' v = storage s v) as Hsame.
    { intros v Hv. unfold storage, s'. cbn [identity A].
      apply (sel_insert_ne (identity s) (A s) 0 v y); lia. }
    assert (shape zero max_count valid s') as Hsh'.
    { split; unfold s'; cbn [N n A identity]; try assumption.
      - rewrite length_insert. assumption.
      - apply Forall_insert; assumption. }
    assert (nodes_ok glue s') as Hnodes'.
    { intros v Hv. unfold s' in Hv. cbn [N] in Hv. rewrite !Hsame by lia.
      apply Hnodes. assumption. }
    destruct (RangeSum_inside idx index_max max_count glue zero valid
                Hidx Hop fuel s i j Hsh Hnodes) as (x & -> & _ & Hx);
      [lia|lia|assumption|].
    destruct (RangeSum_inside idx index_max max_count glue zero valid
                Hidx Hop fuel s' i j Hsh' Hnodes') as (x' & -> & _ & Hx');
      [unfold s'; cbn [N]; lia|unfold s'; cbn [N]; lia|assumption|].
    f_equal. rewrite Hx, Hx' by lia. f_equal.
    unfold leaves. replace (N s') with (N s) by reflexivity.
    apply list_fmap_ext.
    intros m k Hk. apply lookup_seqZ in Hk.
    apply Hsame. destruct Hpow as [h Hh]. pose proof (pow2_pos h). lia.
Qed.

Lemma slot_zero_unused_witness :
  (exists s', Assign size_t glue_int 64 C.demo_tree 2 6 = Ok s' /\
              storage s' 0 = storage C.demo_tree 0) /\
  RangeSum size_t glue_int 64
    (mkSegTree (identity C.demo_tree) (n C.demo_tree) (N C.demo_tree)
       (<[0%nat := 99]> (A C.demo_tree))) 1 6 =
  RangeSum size_t glue_int 64 C.demo_tree 1 6.
Proof.
  destruct (slot_zero_unused size_t (2 ^ 64) (SIZE_MAX / sizeof_int)
              glue_int 0 int_range C_index_type glue_int_operator
              64%nat C.demo_tree) as [Hassign Hquery].
  - apply demo_tree_consistent.
  - apply demo_tree_consistent.
  - vm_compute. reflexivity.
  - split.
    + apply Hassign; [simpl; lia|unfold int_range; lia].
    + apply Hquery; [unfold int_range; lia|lia|simpl; lia].
Defined.

(** ** How long the loops run *)

Lemma SuperCeiling_loop_above_half (n : Z) : 2 ^ 63 < n ->
  forall k : nat, (k <= 63)%nat ->
  forall fuel : nat,
    SuperCeiling_loop size_t fuel (2 ^ (63 - Z.of_nat k)) n = Timeout.
Proof.
  intros Hn. induction k as [|k IH]; intros Hk fuel;
    rewrite SuperCeiling_loop_unfold.
  - change (2 ^ (63 - Z.of_nat 0)) with (2 ^ 63).
    destruct (Z.ltb_spec (2 ^ 63) n); [|lia].
    destruct fuel as [|fuel]; [reflexivity|].
    change (size_t (Z.shiftl (2 ^ 63) 1)) with 0.
    apply SuperCeiling_loop_stuck. lia.
  - assert (0 < 2 ^ (63 - Z.of_nat (S k)))
      by (apply Z.pow_pos_nonneg; lia).
    assert (2 ^ (63 - Z.of_nat k) = 2 * 2 ^ (63 - Z.of_nat (S k))) as Hdouble.
    { replace (63 - Z.of_nat k) with (Z.succ (63 - Z.of_nat (S k))) by lia.
      apply Z.pow_succ_r. lia. }
    assert (2 ^ (63 - Z.of_nat k) <= 2 ^ 63)
      by (apply Z.pow_le_mono_r; lia).
    destruct (Z.ltb_spec (2 ^ (63 - Z.of_nat (S k))) n); [|lia].
    destruct fuel as [|fuel]; [reflexivity|].
    rewrite Z.shiftl_mul_pow2 by lia.
    replace (2 ^ (63 - Z.of_nat (S k)) * 2 ^ 1)
      with (2 ^ (63 - Z.of_nat k)) by lia.
    rewrite size_t_small by lia.
    apply IH. lia.
Qed.

(** X15.  With [size_t] indices [SuperCeiling(n)] returns exactly when
    [n <= 2^63]: for every larger [n] the loop never exits, however long
    it runs. *)
Theorem SuperCeiling_size_t_returns_iff (n : Z) :
  0 <= n < 2 ^ 64 ->
  (n <= 2 ^ 63 -> C.SuperCeiling 64 n = Ok (2 ^ Z.log2_up n)) /\
  (2 ^ 63 < n -> forall fuel : nat, C.SuperCeiling fuel n = Timeout).
Proof.
  intros Hn. split.
  - intros Hle. apply (SuperCeiling_pow2 size_t (2 ^ 64) size_t_small).
    + lia.
    + assert (Z.log2_up n <= Z.log2_up (2 ^ 63))
        by (apply Z.log2_up_le_mono; assumption).
      rewrite Z.log2_up_pow2 in * by lia. lia.
  - intros Hgt fuel. unfold C.SuperCeiling, SuperCeiling.
    pose proof (SuperCeiling_loop_above_half n Hgt 63 ltac:(lia) fuel)
      as Hloop.
    change (2 ^ (63 - Z.of_nat 63)) with 1 in Hloop. exact Hloop.
Qed.

Lemma SuperCeiling_size_t_returns_iff_witness :
  C.SuperCeiling 64 (2 ^ 63) = Ok (2 ^ Z.log2_up (2 ^ 63)) /\
  C.SuperCeiling 1000 (2 ^ 63 + 5) = Timeout.
Proof.
  split.
  - apply (SuperCeiling_size_t_returns_iff (2 ^ 63)); lia.
  - apply (SuperCeiling_size_t_returns_iff (2 ^ 63 + 5)); lia.
Defined.

Lemma Assign_loop_starves {T : Type} idx index_max (glue : T -> T -> T)
    (size : Z) :
  (forall z, 0 <= z < index_max -> idx z = z) ->
  2 * size < index_max ->
  forall (fuel : nat) (A : list T) (i : Z),
    Z.of_nat (length A) = 2 * size ->
    1 <= i < size -> pow2 fuel <= i ->
    Assign_loop idx glue fuel A i = Timeout.
Proof.
  intros Hsmall Hsize.
  induction fuel as [|fuel IH]; intros A i Hlen Hi Hfuel;
    cbn [Assign_loop]; (destruct (Z.gtb_spec i 0); [|lia]).
  - reflexivity.
  - destruct (lookup_lt_is_Some_2 A (Z.to_nat (2 * i))) as [a Ha]; [lia|].
    destruct (lookup_lt_is_Some_2 A (Z.to_nat (2 * i + 1))) as [b Hb];
      [lia|].
    unfold LeftChild, RightChild, Parent.
    rewrite !(Hsmall (2 * i)) by lia. rewrite (Hsmall (2 * i + 1)) by lia.
    rewrite (rd_sel a), (rd_sel a) by lia. cbn [mbind result_bind].
    rewrite wr_ok by lia. cbn [mbind result_bind].
    rewrite pow2_S in Hfuel. pose proof (pow2_pos fuel).
    assert (pow2 fuel <= Z.quot i 2 < i).
    { rewrite Z.quot_div_nonneg by lia. split.
      - apply Z.div_le_lower_bound; lia.
      - apply Z.div_lt; lia. }
    apply IH; [rewrite length_insert; assumption|lia|lia].
Qed.

(** X16.  On a consistent tree with more than one leaf, [Assign] to a leaf
    recomputes exactly [log2 N] ancestors: a walk cut off after fewer
    steps has not reached the root, one allowed [log2 N] steps has. *)
Theorem Assign_walks_log2_N_steps {T : Type} idx index_max max_count
    (glue : T -> T -> T) zero valid :
  index_type idx index_max max_count -> operator glue zero valid ->
  forall (fuel : nat) (s : SegTree T) (k : Z) (x : T),
    shape zero max_count valid s -> nodes_ok glue s ->
    0 <= k < N s -> valid x ->
    (Z.of_nat fuel < Z.log2 (N s) ->
     Assign idx glue fuel s k x = Timeout) /\
    (Z.log2 (N s) <= Z.of_nat fuel ->
     Assign idx glue fuel s k x <> Timeout).
Proof.
  intros [Hsmall Hcount] Hop fuel s k x Hsh Hnodes Hk Hx.
  pose proof Hsh as [[h Hpow] Hn Hcap Hlen Hvalid Hid].
  rewrite Hpow, pow2_log2. rewrite Hpow in Hk.
  unfold Assign. rewrite Hsmall by lia. rewrite wr_ok by lia.
  cbn [mbind result_bind]. unfold Parent.
  assert (2 * Z.quot (k + N s) 2 <= k + N s < 2 * Z.quot (k + N s) 2 + 2)
    as Hq.
  { rewrite Z.quot_div_nonneg by lia.
    pose proof (Z.div_mod (k + N s) 2 ltac:(lia)).
    pose proof (Z.mod_pos_bound (k + N s) 2 ltac:(lia)). lia. }
  split.
  - intros Hfuel.
    assert (pow2 (S fuel) <= pow2 h) as Hle by (apply pow2_le; lia).
    rewrite pow2_S in Hle. pose proof (pow2_pos fuel).
    rewrite (Assign_loop_starves idx index_max glue (pow2 h) Hsmall);
      [reflexivity|lia|rewrite length_insert; lia|lia|lia].
  - intros Hfuel.
    assert (pow2 h <= pow2 fuel) as Hle by (apply pow2_le; lia).
    pose proof (Assign_loop_returns idx glue fuel
                  (<[Z.to_nat (k + N s):=x]> (A s))
                  (Z.quot (k + N s) 2) ltac:(lia)) as Hret.
    destruct (Assign_loop idx glue fuel (<[Z.to_nat (k + N s):=x]> (A s))
                (Z.quot (k + N s) 2)) as [A2| |];
      [discriminate|discriminate|contradiction].
Qed.

Lemma Assign_walks_log2_N_steps_witness :
  Assign size_t glue_int 2 C.demo_tree 5 9 = Timeout /\
  Assign size_t glue_int 3 C.demo_tree 5 9 <> Timeout.
Proof.
  split.
  - apply (Assign_walks_log2_N_steps size_t (2 ^ 64)
             (SIZE_MAX / sizeof_int) glue_int 0 int_range
             C_index_type glue_int_operator 2%nat C.demo_tree 5 9).
    + apply demo_tree_consistent.
    + apply demo_tree_consistent.
    + simpl. lia.
    + unfold int_range. lia.
    + vm_compute. reflexivity.
  - apply (Assign_walks_log2_N_steps size_t (2 ^ 64)
             (SIZE_MAX / sizeof_int) glue_int 0 int_range
             C_index_type glue_int_operator 3%nat C.demo_tree 5 9).
    + apply demo_tree_consistent.
    + apply demo_tree_consistent.
    + simpl. lia.
    + unfold int_range. lia.
    + vm_compute. discriminate.
Defined.

(** ** The debugging output *)

Lemma printA_loop_lines {T : Type} idx index_max (show : T -> string)
    (d : T) (s : SegTree T) :
  (forall z, 0 <= z < index_max -> idx z = z) ->
  2 * N s < index_max ->
  Z.of_nat (length (A s)) = 2 * N s ->
  forall (fuel : nat) (i : Z),
    0 <= i <= 2 * N s -> 2 * N s - i <= Z.of_nat fuel ->
    printA_loop idx show fuel s i =
    Ok ((fun k => printA_line show k (sel d (A s) k)) <$>
          seqZ i (2 * N s - i)).
Proof.
  intros Hsmall Hmax Hlen.
  induction fuel as [|fuel IH]; intros i Hi Hfuel; cbn [printA_loop];
    rewrite (Hsmall (2 * N s)) by lia;
    destruct (Z.ltb_spec i (2 * N s)) as [Hlt|Hge];
    try lia; try (rewrite seqZ_nil by lia; reflexivity).
  rewrite (rd_sel d) by lia. cbn [mbind result_bind].
  rewrite (Hsmall (i + 1)) by lia.
  rewrite IH by lia. cbn [mbind result_bind].
  rewrite (seqZ_cons i) by lia.
  replace (Z.succ i) with (i + 1) by lia.
  replace (Z.pred (2 * N s - i)) with (2 * N s - (i + 1)) by lia.
  reflexivity.
Qed.

Lemma string_snoc_inj (s1 s2 : string) (c : Ascii.ascii) :
  s1 +:+ String c EmptyString = s2 +:+ String c EmptyString -> s1 = s2.
Proof.
  revert s2. induction s1 as [|a s1 IH]; intros [|b s2] H; simpl in *.
  - reflexivity.
  - injection H as _ H. destruct s2; discriminate.
  - injection H as _ H. destruct s1; discriminate.
  - injection H as -> H. f_equal. apply IH. assumption.
Qed.

(** X17.  [printA] writes one line for each of the [2*N] slots, slot 0
    included, in index order; line [i] shows [i] and the content of
    slot [i]. *)
Theorem printA_prints_every_slot {T : Type} idx index_max max_count
    (show : T -> string) zero valid :
  index_type idx index_max max_count ->
  forall (fuel : nat) (s : SegTree T),
    shape zero max_count valid s -> 2 * N s <= Z.of_nat fuel ->
    exists out,
      printA idx show fuel s = Ok out /\
      Z.of_nat (length out) = 2 * N s /\
      (forall i, 0 <= i < 2 * N s ->
         out !! Z.to_nat i = Some (printA_line show i (storage s i))).
Proof.
  intros [Hsmall Hcount] fuel s Hsh Hfuel.
  pose proof Hsh as [[h Hpow] _ Hcap Hlen _ _].
  pose proof (pow2_pos h) as Hpos.
  eexists. split.
  - unfold printA.
    apply (printA_loop_lines idx index_max show (identity s) s Hsmall);
      lia.
  - split.
    + rewrite length_fmap, length_seqZ. lia.
    + intros i Hi. rewrite list_lookup_fmap, lookup_seqZ_lt by lia.
      simpl. rewrite Z2Nat.id by lia. reflexivity.
Qed.

Lemma printA_prints_every_slot_witness :
  exists out,
    printA size_t pretty 64 C.demo_tree = Ok out /\
    Z.of_nat (length out) = 2 * N C.demo_tree /\
    (forall i, 0 <= i < 2 * N C.demo_tree ->
       out !! Z.to_nat i =
       Some (printA_line pretty i (storage C.demo_tree i))).
Proof.
  apply (printA_prints_every_slot size_t (2 ^ 64) (SIZE_MAX / sizeof_int)
           pretty 0 int_range C_index_type).
  - apply demo_tree_consistent.
  - simpl. lia.
Defined.


(** X18.  The output of [printA] determines the array: two trees whose
    dumps coincide hold the same elements in every slot, provided the
    rendering of elements is injective (as that of [int] is). *)
Theorem printA_determines_array {T : Type} idx index_max max_count
    (show : T -> string) zero valid :
  index_type idx index_max max_count ->
  (forall x y, show x = show y -> x = y) ->
  forall (fuel : nat) (s1 s2 : SegTree T),
    shape zero max_count valid s1 -> shape zero max_count valid s2 ->
    2 * N s1 <= Z.of_nat fuel -> 2 * N s2 <= Z.of_nat fuel ->
    printA idx show fuel s1 = printA idx show fuel s2 ->
    A s1 = A s2.
Proof.
  intros [Hsmall Hcount] Hinj fuel s1 s2 Hsh1 Hsh2 Hfuel1 Hfuel2 Hout.
  pose proof Hsh1 as [[h1 Hpow1] _ Hcap1 Hlen1 _ _].
  pose proof Hsh2 as [[h2 Hpow2] _ Hcap2 Hlen2 _ _].
  pose proof (pow2_pos h1). pose proof (pow2_pos h2).
  unfold printA in Hout.
  rewrite (printA_loop_lines idx index_max show (identity s1) s1 Hsmall)
    in Hout by lia.
  rewrite (printA_loop_lines idx index_max show (identity s2) s2 Hsmall)
    in Hout by lia.
  injection Hout as Hout.
  assert (N s1 = N s2) as HN.
  { apply (f_equal length) in Hout.
    rewrite !length_fmap, !length_seqZ in Hout. lia. }
  apply list_eq. intros k.
  destruct (le_lt_dec (length (A s1)) k) as [Hge|Hlt].
  - rewrite !lookup_ge_None_2 by lia. reflexivity.
  - apply (f_equal (fun out => out !! k)) in Hout.
    rewrite !list_lookup_fmap, !lookup_seqZ_lt in Hout by lia.
    simpl in Hout. injection Hout as Hline.
    unfold printA_line in Hline.
    apply (inj (String.app _)) in Hline.
    apply (inj (String.app _)) in Hline.
    apply (inj (String.app _)) in Hline.
    apply string_snoc_inj, Hinj in Hline.
    pose proof (sel_lookup (identity s1) (A s1) (Z.of_nat k) ltac:(lia))
      as H1.
    pose proof (sel_lookup (identity s2) (A s2) (Z.of_nat k) ltac:(lia))
      as H2.
    rewrite Nat2Z.id in H1, H2. rewrite H1, H2.
    f_equal. rewrite Z.add_0_l in Hline. exact Hline.
Qed.

Lemma printA_determines_array_witness : A C.demo_tree = A C.demo_tree.
Proof.
  apply (printA_determines_array size_t (2 ^ 64) (SIZE_MAX / sizeof_int)
           pretty 0 int_range C_index_type
           (fun x y H => inj pretty x y H) 64%nat C.demo_tree C.demo_tree).
  - apply demo_tree_consistent.
  - apply demo_tree_consistent.
  - simpl. lia.
  - simpl. lia.
  - reflexivity.
Defined.

(** ** The variants side by side *)

Lemma shape_mono {T : Type} (zero : T) valid (m1 m2 : Z) (s : SegTree T) :
  m1 <= m2 -> shape zero m1 valid s -> shape zero m2 valid s.
Proof. intros Hm [? ? ? ? ? ?]. split; try assumption. lia. Qed.

Lemma build_slot0 {T : Type} idx index_max max_count
    (glue : T -> T -> T) zero valid :
  index_type idx index_max max_count -> operator glue zero valid ->
  forall (fuel : nat) (size : Z) (ops : list (Z * T)) (s : SegTree T),
    fits max_count size -> Z.log2_up size < Z.of_nat fuel ->
    Forall (valid_op valid (2 ^ Z.log2_up size)) ops ->
    build idx glue zero max_count fuel size ops = Ok s ->
    storage s 0 = zero.
Proof.
  intros Hidx Hop fuel size ops s Hfits Hfuel.
  pose proof Hidx as [Hsmall Hcount]. pose proof Hop as [Hv Hzv _ Hzl _].
  revert s. induction ops as [|[i x] ops IH] using rev_ind;
    intros s Hops Hrun.
  - unfold build in Hrun.
    rewrite (SegTreeInit_fits idx index_max Hsmall zero max_count Hcount)
      in Hrun by (assumption || lia).
    simpl in Hrun. injection Hrun as <-.
    apply (fresh_shape glue zero max_count valid Hzv Hzl size Hfits).
  - apply Forall_app in Hops as [Hops Hop'].
    apply Forall_singleton in Hop' as [Hi Hx]. simpl in Hi, Hx.
    destruct (build_reaches idx index_max Hsmall glue zero max_count Hcount
                valid Hv Hzv Hzl fuel size ops Hfits Hfuel Hops)
      as (s' & Hrun' & Hsh' & _ & _ & HN' & _).
    pose proof (IH s' Hops Hrun') as H0.
    unfold build in Hrun, Hrun'.
    destruct (SegTreeInit idx zero max_count fuel size) as [s0| |];
      cbn [mbind result_bind] in Hrun, Hrun'; try discriminate.
    rewrite Assign_all_app, Hrun' in Hrun.
    cbn [mbind result_bind Assign_all] in Hrun.
    destruct (Assign idx glue fuel s' i x) as [s1| |] eqn:Hassign;
      cbn [mbind result_bind] in Hrun; try discriminate.
    injection Hrun as <-.
    rewrite (Assign_slot0 idx glue fuel s' s1 i x Hassign); [exact H0|].
    destruct Hsh' as [_ _ Hcap _ _ _].
    pose proof (Z.pow_pos_nonneg 2 (Z.log2_up size) ltac:(lia)
                  (Z.log2_up_nonneg size)).
    rewrite Hsmall; lia.
Qed.

Lemma int_fits (size : Z) : 0 <= size <= 2 ^ 29 -> fits INT_MAX size.
Proof.
  intros Hn. split; [lia|].
  assert (2 ^ Z.log2_up size <= 2 ^ 29) by (apply log2_up_least; lia).
  unfold INT_MAX. lia.
Qed.

(** X19.  For every logical size up to 2^29 and every sequence of
    assignments to positions in [[0, size)], the variant with [size_t]
    indices ([src/c/segtree.c]) and the variant with [int] indices
    ([src/segtree.cpp]) build the same tree and return the same answer to
    every query with [0 <= i <= j <= N-1]. *)
Theorem size_t_and_int_variants_agree (fuel : nat) (size : Z)
    (ops : list (Z * Z)) :
  0 <= size <= 2 ^ 29 -> Z.log2_up size < Z.of_nat fuel ->
  Forall (valid_op int_range size) ops ->
  exists s,
    build size_t glue_int 0 (SIZE_MAX / sizeof_int) fuel size ops = Ok s /\
    build int glue_int 0 (PTRDIFF_MAX / sizeof_int) fuel size ops = Ok s /\
    (forall i j, 0 <= i <= j -> j <= N s - 1 ->
       C.RangeSum fuel s i j = Cpp.RangeSum fuel s i j).
Proof.
  intros Hsize Hfuel Hops.
  pose proof (log2_up_ge size) as Hge.
  assert (Forall (valid_op int_range (2 ^ Z.log2_up size)) ops) as Hops'
    by (apply (valid_op_mono int_range size); assumption).
  pose proof C_index_type as Hc. pose proof int_index_type as Hi.
  pose proof glue_int_operator as Hop.
  pose proof Hc as [Hsmall1 Hcount1]. pose proof Hi as [Hsmall2 Hcount2].
  pose proof Hop as [Hv Hzv _ Hzl _].
  assert (fits (SIZE_MAX / sizeof_int) size) as Hfits1
    by (apply C_fits; lia).
  pose proof (int_fits size Hsize) as Hfits2.
  destruct (build_reaches size_t (2 ^ 64) Hsmall1 glue_int 0
              (SIZE_MAX / sizeof_int) Hcount1 int_range Hv Hzv Hzl
              fuel size ops Hfits1 Hfuel Hops')
    as (s1 & Hrun1 & Hsh1 & Hnodes1 & Hn1 & HN1 & Hleaves1).
  destruct (build_reaches int (2 ^ 31) Hsmall2 glue_int 0
              INT_MAX Hcount2 int_range Hv Hzv Hzl
              fuel size ops Hfits2 Hfuel Hops')
    as (s2 & Hrun2 & Hsh2 & Hnodes2 & Hn2 & HN2 & Hleaves2).
  pose proof (build_slot0 size_t (2 ^ 64) (SIZE_MAX / sizeof_int) glue_int 0
                int_range Hc Hop fuel size ops s1 Hfits1 Hfuel Hops' Hrun1)
    as H01.
  pose proof (build_slot0 int (2 ^ 31) INT_MAX glue_int 0
                int_range Hi Hop fuel size ops s2 Hfits2 Hfuel Hops' Hrun2)
    as H02.
  assert (s1 = s2) as Heq.
  { apply (consistent_eq glue_int 0 (SIZE_MAX / sizeof_int) int_range);
      try assumption.
    - apply (shape_mono 0 int_range INT_MAX); [|assumption].
      vm_compute. discriminate.
    - congruence.
    - congruence.
    - congruence.
    - intros k Hk. rewrite Hleaves1 by lia.
      rewrite HN1, <- HN2. rewrite Hleaves2 by lia. reflexivity. }
  subst s2. exists s1. split; [exact Hrun1|]. split.
  - unfold build.
    change (SegTreeInit int 0 (PTRDIFF_MAX / sizeof_int) fuel size)
      with (Cpp.Segtree fuel size).
    rewrite Cpp_Segtree_count. exact Hrun2.
  - intros i j Hij Hj.
    assert (Z.log2 (N s1) < Z.of_nat fuel) as Hfuel'
      by (rewrite HN1, Z.log2_pow2 by apply Z.log2_up_nonneg; assumption).
    destruct (RangeSum_inside size_t (2 ^ 64) (SIZE_MAX / sizeof_int)
                glue_int 0 int_range Hc Hop fuel s1 i j Hsh1 Hnodes1)
      as (x & Hx & _ & Hfx); [lia|lia|assumption|].
    destruct (RangeSum_inside int (2 ^ 31) INT_MAX
                glue_int 0 int_range Hi Hop fuel s1 i j Hsh2 Hnodes2)
      as (y & Hy & _ & Hfy); [lia|lia|assumption|].
    unfold C.RangeSum, Cpp.RangeSum. rewrite Hx, Hy, Hfx, Hfy by lia.
    reflexivity.
Qed.

Lemma size_t_and_int_variants_agree_witness :
  exists s,
    build size_t glue_int 0 (SIZE_MAX / sizeof_int) 64 7 [(3, 7); (4, 1)]
      = Ok s /\
    build int glue_int 0 (PTRDIFF_MAX / sizeof_int) 64 7 [(3, 7); (4, 1)]
      = Ok s /\
    (forall i j, 0 <= i <= j -> j <= N s - 1 ->
       C.RangeSum 64 s i j = Cpp.RangeSum 64 s i j).
Proof.
  apply (size_t_and_int_variants_agree 64 7 [(3, 7); (4, 1)]).
  - lia.
  - vm_compute. reflexivity.
  - apply demo_ops_valid. lia.
Defined.

(** X20.  When the caller's struct holds 0 in its [identity] field (a
    static or zeroed struct), [SegTreeInit] of [src/segtree.c] builds
    exactly the tree that the constructor of [src/segtree.cpp] builds. *)
Theorem Legacy_with_zero_identity (fuel : nat) (s0 : SegTree Z) (size : Z)
    (s : SegTree Z) :
  identity s0 = 0 -> Cpp.Segtree fuel size = Ok s ->
  Legacy.SegTreeInit fuel s0 size = Ok s.
Proof.
  intros Hid. unfold Cpp.Segtree, SegTreeInit, Legacy.SegTreeInit.
  change (Legacy.SuperCeiling fuel size) with (SuperCeiling int fuel size).
  destruct (SuperCeiling int fuel size) as [p| |];
    cbn [mbind result_bind]; try discriminate.
  destruct ((0 <=? int (2 * p)) && (int (2 * p) <=? PTRDIFF_MAX / sizeof_int));
    [|discriminate].
  intros [= <-]. rewrite Hid. reflexivity.
Qed.

Lemma Legacy_with_zero_identity_witness :
  Legacy.SegTreeInit 64 (mkSegTree 0 99 99 [5; 6]) 7 =
  Ok (mkSegTree 0 7 8 (replicate 16 0)).
Proof.
  apply (Legacy_with_zero_identity 64 (mkSegTree 0 99 99 [5; 6]) 7).
  - reflexivity.
  - vm_compute. reflexivity.
Defined.

(** ** The work of a query *)

Lemma f_calls_bound idx index_max :
  (forall z, 0 <= z < index_max -> idx z = z) ->
  forall (h fuel : nat) (l r i j : Z),
    0 <= l -> r = l + pow2 h - 1 -> 2 * (r + 1) <= index_max ->
    l <= i -> i <= j -> j <= r -> (h < fuel)%nat ->
    1 <= f_calls idx fuel l r i j <= 4 * Z.of_nat h + 1 /\
    (i = l -> f_calls idx fuel l r i j <= 2 * Z.of_nat h + 1) /\
    (j = r -> f_calls idx fuel l r i j <= 2 * Z.of_nat h + 1) /\
    (i = l -> j = r -> f_calls idx fuel l r i j = 1).
Proof.
  intros Hsmall.
  induction h as [|h IH]; intros fuel l r i j Hl Hr Hmax Hli Hij Hjr Hfuel;
    (destruct fuel as [|fuel]; [lia|]); cbn [f_calls].
  - rewrite pow2_0 in Hr.
    destruct (Z.eqb_spec l i); [|lia]. destruct (Z.eqb_spec r j); [|lia].
    cbn [andb]. lia.
  - pose proof (pow2_pos h) as Hp. rewrite pow2_S in Hr.
    destruct (Z.eqb_spec l i) as [Heqi|Hnei];
      destruct (Z.eqb_spec r j) as [Heqj|Hnej]; cbn [andb]; try lia;
      rewrite (Hsmall (l + r)) by lia;
      replace (l + r) with (2 * (l + pow2 h - 1) + 1) by lia;
      rewrite quot2_odd by lia;
      set (m := l + pow2 h - 1) in *;
      rewrite !(Hsmall (m + 1)) by lia;
      rewrite !max_Zmax, !min_Zmin;
      pose proof (IH fuel l m i (Z.min m j)) as HL;
      pose proof (IH fuel (m + 1) r (Z.max i (m + 1)) j) as HR;
      destruct (Z.leb_spec i m) as [Him|Him];
      destruct (Z.gtb_spec j m) as [Hjm|Hjm]; try lia;
      try (specialize (HL ltac:(lia) ltac:(lia) ltac:(lia) ltac:(lia)
                          ltac:(lia) ltac:(lia) ltac:(lia)));
      try (specialize (HR ltac:(lia) ltac:(lia) ltac:(lia) ltac:(lia)
                          ltac:(lia) ltac:(lia) ltac:(lia)));
      lia.
Qed.

(** X21.  A query does logarithmic work: on a tree of capacity [N], the
    call [RangeSum(i, j)] with [0 <= i <= j <= N-1] makes at most
    [4 * log2 N + 1] invocations of [f], and at most [2 * log2 N + 1] when
    the range starts at 0 or ends at [N-1]. *)
Theorem RangeSum_makes_few_calls {T : Type} idx index_max max_count
    (zero : T) valid :
  index_type idx index_max max_count ->
  forall (fuel : nat) (s : SegTree T) (i j : Z),
    shape zero max_count valid s ->
    0 <= i <= j -> j <= N s - 1 -> Z.log2 (N s) < Z.of_nat fuel ->
    1 <= f_calls idx fuel 0 (idx (N s - 1)) i j <= 4 * Z.log2 (N s) + 1 /\
    (i = 0 \/ j = N s - 1 ->
     f_calls idx fuel 0 (idx (N s - 1)) i j <= 2 * Z.log2 (N s) + 1).
Proof.
  intros [Hsmall Hcount] fuel s i j Hsh Hij Hj Hfuel.
  pose proof Hsh as [[h Hpow] _ Hcap _ _ _].
  pose proof (pow2_pos h) as Hp.
  rewrite Hsmall by lia. rewrite Hpow, pow2_log2 in *.
  pose proof (f_calls_bound idx index_max Hsmall h fuel 0 (pow2 h - 1) i j
                ltac:(lia) ltac:(lia) ltac:(lia) ltac:(lia) ltac:(lia)
                ltac:(lia) ltac:(lia)) as (Hall & Hleft & Hright & _).
  lia.
Qed.

Lemma RangeSum_makes_few_calls_witness :
  1 <= f_calls size_t 64 0 (size_t (N C.demo_tree - 1)) 2 6
    <= 4 * Z.log2 (N C.demo_tree) + 1 /\
  (2 = 0 \/ 6 = N C.demo_tree - 1 ->
   f_calls size_t 64 0 (size_t (N C.demo_tree - 1)) 2 6
     <= 2 * Z.log2 (N C.demo_tree) + 1).
Proof.
  apply (RangeSum_makes_few_calls size_t (2 ^ 64) (SIZE_MAX / sizeof_int)
           0 int_range C_index_type 64%nat C.demo_tree 2 6).
  - apply demo_tree_consistent.
  - lia.
  - simpl. lia.
  - vm_compute. reflexivity.
Defined.

(** ** An operator whose identity is not 0 *)

(** X22.  The identity of the tree is the element 0 whatever operator the
    constructor of [src/cpp/generic_segtree.cpp] is given.  With an
    operator that 0 absorbs instead (multiplication, say), every query
    that lies within one half of a tree of at least two leaves returns 0,
    whatever was assigned; so does every query of a single position. *)
Theorem RangeSum_with_absorbing_zero {T : Type} idx index_max max_count
    (glue : T -> T -> T) zero :
  index_type idx index_max max_count ->
  (forall x, glue zero x = zero) -> (forall x, glue x zero = zero) ->
  forall (fuel : nat) (s : SegTree T) (i j : Z),
    shape zero max_count (fun _ => True) s ->
    2 <= N s -> 0 <= i <= N s - 1 -> 0 <= j <= N s - 1 ->
    2 * j + 2 <= N s \/ N s <= 2 * i ->
    Z.log2 (N s) < Z.of_nat fuel ->
    RangeSum idx glue fuel s i j = Ok zero.
Proof.
  intros Hidx Hzl Hzr fuel s i j Hsh HN Hi Hj Hhalf Hfuel.
  pose proof Hidx as [Hsmall Hcount].
  pose proof Hsh as [[h Hpow] _ Hcap Hlen _ Hid].
  rewrite Hpow, pow2_log2 in Hfuel.
  destruct h as [|h]; [rewrite Hpow, pow2_0 in HN; lia|].
  pose proof (root_block s (S h) Hpow) as Hb.
  pose proof (pow2_pos h) as Hp. pose proof (pow2_S h) as HS.
  destruct (block_inner _ _ _ _ _ Hb) as (_ & Hleft & Hright).
  unfold RangeSum. rewrite (Hsmall (N s - 1)) by lia.
  destruct fuel as [|fuel]; [lia|]. cbn [f].
  assert ((0 =? i) && (N s - 1 =? j) = false) as ->.
  { apply andb_false_iff.
    destruct Hhalf; [right|left]; apply Z.eqb_neq; lia. }
  rewrite (block_mid idx index_max Hsmall zero max_count Hcount
             (fun _ => True) s Hsh _ _ _ _ Hb).
  set (m := 0 + pow2 h - 1) in *.
  unfold LeftChild, RightChild. rewrite !max_Zmax, !min_Zmin.
  rewrite !(Hsmall (2 * 1)) by lia.
  rewrite !(Hsmall (2 * 1 + 1)) by lia.
  rewrite !(Hsmall (m + 1)) by lia.
  replace (m + 1) with (0 + pow2 h) by lia.
  rewrite Hid.
  destruct Hhalf as [Hlow|Hhigh].
  - destruct (Z.gtb_spec j m); [lia|].
    destruct (Z.leb_spec i m).
    + destruct (f_returns idx index_max max_count glue zero s Hidx Hsh
                  h fuel (2 * 1) 0 m i (Z.min m j)) as [a ->];
        [assumption|lia|lia|lia|].
      simpl. rewrite Hzr. reflexivity.
    + simpl. rewrite Hzr. reflexivity.
  - destruct (Z.leb_spec i m); [lia|].
    destruct (Z.gtb_spec j m).
    + destruct (f_returns idx index_max max_count glue zero s Hidx Hsh
                  h fuel (2 * 1 + 1) (0 + pow2 h) (N s - 1)
                  (Z.max i (0 + pow2 h)) j) as [b ->];
        [assumption|lia|lia|lia|].
      simpl. rewrite Hzl. reflexivity.
    + simpl. rewrite Hzl. reflexivity.
Qed.

Lemma RangeSum_with_absorbing_zero_witness :
  exists s,
    build size_t Z.mul 0 (PTRDIFF_MAX / sizeof_int) 64 7 [(3, 7); (4, 1)]
      = Ok s /\
    storage s (N s + 3) = 7 /\
    RangeSum size_t Z.mul 64 s 3 3 = Ok 0.
Proof.
  eexists. split; [vm_compute; reflexivity|]. split; [reflexivity|].
  apply (RangeSum_with_absorbing_zero size_t (2 ^ 64)
           (PTRDIFF_MAX / sizeof_int) Z.mul 0
           (size_t_index_type sizeof_int ltac:(unfold sizeof_int; lia))).
  - intros x. reflexivity.
  - intros x. apply Z.mul_0_r.
  - split; cbn [N n A identity].
    + exists 3%nat. reflexivity.
    + lia.
    + vm_compute. discriminate.
    + reflexivity.
    + apply Forall_forall. intros; exact I.
    + reflexivity.
  - simpl. lia.
  - simpl. lia.
  - simpl. lia.
  - simpl. lia.
  - vm_compute. reflexivity.
Defined.

(** ** Sizes that construction cannot serve *)

Lemma log2_up_between (n lo hi : Z) (b : Z) :
  lo <= n <= hi -> Z.log2_up lo = b -> Z.log2_up hi = b ->
  Z.log2_up n = b.
Proof.
  intros Hn Hlo Hhi.
  pose proof (Z.log2_up_le_mono lo n ltac:(lia)).
  pose proof (Z.log2_up_le_mono n hi ltac:(lia)). lia.
Qed.

(** X23.  In [src/c/segtree.c], beyond the sizes whose [2*N] slots fit an
    allocation (up to 2^60): for [2^60 < n <= 2^62] the byte count of
    [malloc] wraps and the zero-filling loop stores past the block; for
    [2^62 < n <= 2^63] the count [2*N] itself wraps to 0 and [SegTreeInit]
    returns a tree with [N = 2^63] and no slot at all; for larger [n] it
    never returns. *)
Theorem SegTreeInit_large_sizes (n : Z) :
  (2 ^ 60 < n <= 2 ^ 62 -> C.SegTreeInit 64 n = Undef) /\
  (2 ^ 62 < n <= 2 ^ 63 ->
   C.SegTreeInit 64 n = Ok (mkSegTree 0 n (2 ^ 63) [])) /\
  (2 ^ 63 < n -> forall fuel : nat, C.SegTreeInit fuel n = Timeout).
Proof.
  unfold C.SegTreeInit, SegTreeInit. split; [|split].
  - intros Hn.
    rewrite (SuperCeiling_pow2 size_t (2 ^ 64) size_t_small).
    + cbn [mbind result_bind].
      destruct (Z.le_gt_cases n (2 ^ 61)) as [Hle|Hgt].
      * rewrite (log2_up_between n (2 ^ 60 + 1) (2 ^ 61) 61);
          [reflexivity|lia|reflexivity|reflexivity].
      * rewrite (log2_up_between n (2 ^ 61 + 1) (2 ^ 62) 62);
          [reflexivity|lia|reflexivity|reflexivity].
    + lia.
    + assert (Z.log2_up n <= Z.log2_up (2 ^ 62))
        by (apply Z.log2_up_le_mono; lia).
      rewrite Z.log2_up_pow2 in * by lia. lia.
  - intros Hn.
    rewrite (SuperCeiling_pow2 size_t (2 ^ 64) size_t_small).
    + cbn [mbind result_bind].
      rewrite (log2_up_between n (2 ^ 62 + 1) (2 ^ 63) 63);
        [reflexivity|lia|reflexivity|reflexivity].
    + lia.
    + assert (Z.log2_up n <= Z.log2_up (2 ^ 63))
        by (apply Z.log2_up_le_mono; lia).
      rewrite Z.log2_up_pow2 in * by lia. lia.
  - intros Hn fuel. unfold SuperCeiling.
    pose proof (SuperCeiling_loop_above_half n Hn 63 ltac:(lia) fuel)
      as Hloop.
    change (2 ^ (63 - Z.of_nat 63)) with 1 in Hloop.
    rewrite Hloop. reflexivity.
Qed.

Lemma SegTreeInit_large_sizes_witness :
  C.SegTreeInit 64 (2 ^ 61) = Undef /\
  C.SegTreeInit 64 (2 ^ 63) = Ok (mkSegTree 0 (2 ^ 63) (2 ^ 63) []) /\
  C.SegTreeInit 1000 (2 ^ 64 - 1) = Timeout.
Proof.
  split; [|split].
  - apply (SegTreeInit_large_sizes (2 ^ 61)). lia.
  - apply (SegTreeInit_large_sizes (2 ^ 63)). lia.
  - apply (SegTreeInit_large_sizes (2 ^ 64 - 1)). lia.
Defined.
